(** * how_much_for_your_car: the crawler of [src/data_downloader.py]

    A shallow embedding of the class [CarCrawler] and the properties of its
    crawl loop, its three link sets, its batch saving and its field
    extraction.

    Conventions of the embedding.
    - A Python [str] is a list of Unicode code points ([list N]).
    - A Python [set] of links is a [gset str]; a [dict] with string keys is
      a [gmap str _].
    - An exception is a value of [exn]; code that may raise returns [Exc].
    - The outside world (the web site, the image server, the clock) is a
      record [World] of functions indexed by the number of the result page
      under work, so that the same URL may answer differently at different
      times.
    - A parsed HTML document is the record of the answers to the queries the
      source makes on it ([find], [find_all], [getText], [get]).
    - [ThreadPoolExecutor]: a wave follows a [Schedule], which the world
      gives: the order in which the iterator of line 62 yields the
      pending links, whether and when the driver finds that a task has
      removed its link from the set it is iterating ([RuntimeError]: Set
      changed size during iteration), and the order in which the tasks
      submitted so far run lines 114 to 120.  The [with] block waits for
      the submitted tasks before the exception leaves the method.  The
      statements of different tasks act on different links, so that
      only the order of the tasks matters.  An exception leaving a task
      stays in its future (the source never calls [result]), so it does
      not reach the driver.
    - [print] calls are not modelled. *)

From Stdlib Require Import NArith ZArith List Lia.
From stdpp Require Import base option list strings gmap sets.

#[local] Set Warnings "-clear-no-such-hyp".

Local Open Scope N_scope.

(** ** Python strings *)

Module PyStr.

Abbreviation str := (list N).

(** An ASCII literal, code point by code point. *)
Fixpoint of_string (s : string) : str :=
  match s with
  | EmptyString => []
  | String c s' => Ascii.N_of_ascii c :: of_string s'
  end.

Arguments of_string s%_string.

(** [str.isspace] for one character (CPython's [_PyUnicode_IsWhitespace]). *)
Definition isspace (c : N) : bool :=
  ((9 <=? c) && (c <=? 13)) || ((28 <=? c) && (c <=? 32))
  || (c =? 133) || (c =? 160) || (c =? 5760)
  || ((8192 <=? c) && (c <=? 8202))
  || (c =? 8232) || (c =? 8233) || (c =? 8239) || (c =? 8287)
  || (c =? 12288).

Fixpoint lstrip (s : str) : str :=
  match s with
  | [] => []
  | c :: s' => if isspace c then lstrip s' else s
  end.

Definition rstrip (s : str) : str := rev (lstrip (rev s)).

(** [s.strip()] *)
Definition strip (s : str) : str := rstrip (lstrip s).

(** [s.split(sep)] for a separator of one character: never empty. *)
Fixpoint split (sep : N) (s : str) : list str :=
  match s with
  | [] => [[]]
  | c :: s' =>
      if c =? sep then [] :: split sep s'
      else match split sep s' with
           | h :: t => (c :: h) :: t
           | [] => [[c]]
           end
  end.

(** [s.replace(c, '')] for a pattern of one character. *)
Definition remove_char (c : N) (s : str) : str :=
  filter (λ x, x ≠ c) s.

Fixpoint startswith (p s : str) : bool :=
  match p, s with
  | [], _ => true
  | _ :: _, [] => false
  | a :: p', b :: s' => (a =? b) && startswith p' s'
  end.

(** [p in s] *)
Fixpoint contains (p s : str) : bool :=
  startswith p s ||
  match s with
  | [] => false
  | _ :: s' => contains p s'
  end.

(** The truth value of a string: non-empty. *)
Definition truthy (s : str) : bool :=
  match s with [] => false | _ => true end.

(** [l[start:stop]] with Python's treatment of negative and
    out-of-range bounds. *)
Definition clamp_index (len : nat) (i : Z) : nat :=
  if (i <? 0)%Z then Z.to_nat (Z.max 0 (Z.of_nat len + i))
  else Nat.min (Z.to_nat i) len.

Definition slice {A} (start stop : Z) (l : list A) : list A :=
  let a := clamp_index (length l) start in
  let b := clamp_index (length l) stop in
  take (b - a) (drop a l).

(** [l[start:]] *)
Definition slice_from {A} (start : Z) (l : list A) : list A :=
  drop (clamp_index (length l) start) l.

Definition NBSP : N := 160.
Definition LF : N := 10.
Definition HYPHEN : N := 45.

End PyStr.
Import PyStr.

(** ** Exceptions *)

Inductive exn : Type :=
| AttributeError      (* an attribute or method looked up on [None] *)
| IndexError          (* a list index out of range *)
| KeyError            (* [set.remove] of an absent element *)
| MissingSchema       (* [requests.get(None)] *)
| RuntimeError        (* a set changed size during its iteration *)
| NetworkError        (* a connection or HTTP-client failure *)
| DecodeError.        (* an image that cannot be opened *)

Inductive Exc (A : Type) : Type :=
| Ok (a : A)
| Raise (e : exn).
Arguments Ok {A} a.
Arguments Raise {A} e.

#[global] Instance Exc_ret : MRet Exc := λ A a, Ok a.
#[global] Instance Exc_bind : MBind Exc := λ A B f m,
  match m with
  | Ok a => f a
  | Raise e => Raise e
  end.

Definition raises {A} (m : Exc A) : Prop := ∃ e, m = Raise e.

(** [x.attr] where [x] is the result of a [find]: raises on [None]. *)
Definition attr_of {A} (found : option A) : Exc A :=
  match found with
  | Some x => Ok x
  | None => Raise AttributeError
  end.

(** [l[i]] for [i >= 0]. *)
Definition getitem {A} (l : list A) (i : nat) : Exc A :=
  match l !! i with
  | Some x => Ok x
  | None => Raise IndexError
  end.

(** ** Documents, the world and the crawler's data *)

(** The [a] element of the pager: only its [href] attribute is read. *)
Record Anchor : Type := { href : option str }.

(** A result (listing) page, through the two queries of
    [iterate_over_available_cars]. *)
Record ResultPage : Type := {
  (** [find('li', class_='next')], and inside it [find('a')] *)
  li_next : option (option Anchor);
  (** the [href] of every anchor found by
      [find_all('a', title=True, class_="", href=re.compile('/szemelyauto/'))] *)
  vehicle_hrefs : list str
}.

(** A car page, through the queries of the four [parse_*] functions. *)
Record CarPage : Type := {
  (** [src] of every [img] with [itemprop=thumbnail] *)
  thumbnails : list (option str);
  (** text of [a type=marka], [a type=modell], [a type=modellcsoport] *)
  marka : option str;
  modell : option str;
  modellcsoport : option str;
  (** [table class=hirdetesadatok]: for each [tr], the text of each [td] *)
  hirdetesadatok : option (list (list str));
  (** text of every [div class="col-xs-28 col-sm-14"] *)
  detail_divs : list str;
  (** text of [div leiras] and of [div egyebinformacio] *)
  leiras : option str;
  egyebinformacio : option str
}.

Inductive Image : Type := DecodedImage (bytes : list N).

Record Params : Type := {
  website : str;
  headers : gmap str str;
  cookies : gmap str str
}.

(** [arrange picks l] lists [l] in another order: each pick takes, by
    its index modulo the number of elements left, the element that
    comes next; the elements left when the picks are used up follow in
    their order. *)
Fixpoint arrange {A} (picks : list nat) (l : list A) : list A :=
  match picks with
  | [] => l
  | i :: picks' =>
      match l !! (i mod length l)%nat with
      | Some x => x :: arrange picks' (delete (i mod length l)%nat l)
      | None => l
      end
  end.

(** How the threads of one wave interleave (lines 61 to 63). *)
Record Schedule : Type := {
  (** the order in which the set iterator yields the pending links *)
  yield_picks : list nat;
  (** [Some k]: when the driver asks the iterator for what follows the
      first [k+1] links (the next link, or the end of the set), a task
      has already removed its link from the set, and the iterator
      raises [RuntimeError]; [None]: no task has done so when the [for]
      loop ends *)
  changed_after : option nat;
  (** the order in which the submitted tasks reach lines 114 to 120
      (any order: the limit of [max_workers] threads only excludes some) *)
  finish_picks : list nat
}.

Record World : Type := {
  (** [bs(requests.get(url).content, 'lxml')] while result page [n] is
      the last one fetched so far *)
  requests_get : nat → str → Exc ResultPage;
  (** [bs(requests.post(url, headers, cookies).content, 'lxml')] during
      wave [n] *)
  requests_post : nat → str → gmap str str → gmap str str → Exc CarPage;
  (** [Image.open(BytesIO(urlopen(src).read()))] during wave [n] *)
  urlopen : nat → option str → Exc Image;
  (** [datetime.now().strftime('%Y_%m_%d_%H_%M_%S')] after wave [n] *)
  now : nat → str;
  (** the interleaving of the threads during wave [n] *)
  schedule : nat → Schedule
}.

(** The value stored under a key of [data['description']]: a string, or
    the list of lines of the second section. *)
Inductive DescValue : Type :=
| DStr (s : str)
| DList (lines : list str).

(** The dictionary [data] built for one car. *)
Record VehicleData : Type := {
  data_link : str;
  data_id : str;
  data_images : list Image;
  data_common : gmap str str;
  data_details : gmap str (list str);
  data_description : gmap str DescValue
}.

Definition set_images (v : list Image) (d : VehicleData) : VehicleData :=
  {| data_link := data_link d; data_id := data_id d; data_images := v;
     data_common := data_common d; data_details := data_details d;
     data_description := data_description d |}.
Definition set_common (v : gmap str str) (d : VehicleData) : VehicleData :=
  {| data_link := data_link d; data_id := data_id d; data_images := data_images d;
     data_common := v; data_details := data_details d;
     data_description := data_description d |}.
Definition set_details (v : gmap str (list str)) (d : VehicleData) : VehicleData :=
  {| data_link := data_link d; data_id := data_id d; data_images := data_images d;
     data_common := data_common d; data_details := v;
     data_description := data_description d |}.
Definition set_description (v : gmap str DescValue) (d : VehicleData) : VehicleData :=
  {| data_link := data_link d; data_id := data_id d; data_images := data_images d;
     data_common := data_common d; data_details := data_details d;
     data_description := v |}.

(** The content of a pickled file. *)
Inductive Pickle : Type :=
| PickledData (records : list VehicleData)
| PickledLinks (links : gset str).

(** The fields of a [CarCrawler] object, and the files it has written so
    far (oldest first; a later write to the same name replaces the file). *)
Record CarCrawler : Type := {
  params : Params;
  vehicle_data : list VehicleData;
  new_vehicle_links : gset str;
  broken_vehicle_links : gset str;
  processed_vehicle_links : gset str;
  written : list (str * Pickle)
}.

Definition set_vehicle_data (v : list VehicleData) (c : CarCrawler) : CarCrawler :=
  {| params := params c; vehicle_data := v;
     new_vehicle_links := new_vehicle_links c;
     broken_vehicle_links := broken_vehicle_links c;
     processed_vehicle_links := processed_vehicle_links c;
     written := written c |}.
Definition set_new (v : gset str) (c : CarCrawler) : CarCrawler :=
  {| params := params c; vehicle_data := vehicle_data c;
     new_vehicle_links := v;
     broken_vehicle_links := broken_vehicle_links c;
     processed_vehicle_links := processed_vehicle_links c;
     written := written c |}.
Definition set_broken (v : gset str) (c : CarCrawler) : CarCrawler :=
  {| params := params c; vehicle_data := vehicle_data c;
     new_vehicle_links := new_vehicle_links c;
     broken_vehicle_links := v;
     processed_vehicle_links := processed_vehicle_links c;
     written := written c |}.
Definition set_processed (v : gset str) (c : CarCrawler) : CarCrawler :=
  {| params := params c; vehicle_data := vehicle_data c;
     new_vehicle_links := new_vehicle_links c;
     broken_vehicle_links := broken_vehicle_links c;
     processed_vehicle_links := v;
     written := written c |}.
Definition pickle_dump (filename : str) (content : Pickle) (c : CarCrawler) : CarCrawler :=
  {| params := params c; vehicle_data := vehicle_data c;
     new_vehicle_links := new_vehicle_links c;
     broken_vehicle_links := broken_vehicle_links c;
     processed_vehicle_links := processed_vehicle_links c;
     written := written c ++ [(filename, content)] |}.

(** ** Field extraction: the four [parse_*] static methods *)

Module Keys.
Definition brand : str := of_string "brand".
Definition model : str := of_string "model".
Definition model_group : str := of_string "model_group".
(** 'Beltér', 'Műszaki', 'Kültér', 'Multimédia / Navigáció' *)
Definition Belter : str := of_string "Belt" ++ [233] ++ of_string "r".
Definition Muszaki : str := of_string "M" ++ [369] ++ of_string "szaki".
Definition Kulter : str := of_string "K" ++ [252] ++ of_string "lt" ++ [233] ++ of_string "r".
Definition Multimedia : str :=
  of_string "Multim" ++ [233] ++ of_string "dia / Navig" ++ [225]
    ++ of_string "ci" ++ [243].
(** 'Leírás', 'Egyéb információ' *)
Definition Leiras : str := of_string "Le" ++ [237] ++ of_string "r" ++ [225] ++ of_string "s".
Definition Egyeb : str :=
  of_string "Egy" ++ [233] ++ of_string "b inform" ++ [225] ++ of_string "ci" ++ [243].
End Keys.

(** The [for image_link in image_links] loop. *)
Fixpoint parse_images_loop (w : World) (n : nat)
    (image_links : list (option str)) (images : list Image) : Exc (list Image) :=
  match image_links with
  | [] => Ok images
  | image_link :: rest =>
      decoded_image ← urlopen w n image_link;
      parse_images_loop w n rest (images ++ [decoded_image])
  end.

Definition parse_images (w : World) (n : nat)
    (data : VehicleData) (car_page_html : CarPage) : Exc VehicleData :=
  let data := set_images [] data in
  let image_links := thumbnails car_page_html in
  images ← parse_images_loop w n image_links (data_images data);
  Ok (set_images images data).

(** The non-empty stripped cells of one table row (lines 156 and 157). *)
Definition row_elements (row : list str) : list str :=
  let cols := strip <$> filter (λ ele, truthy (strip ele)) row in
  filter (λ ele, truthy ele) cols.

(** The body of the [for row in rows] loop. *)
Definition parse_common_row (common : gmap str str) (row : list str) : gmap str str :=
  let elements := row_elements row in
  if (length elements =? 2)%nat
  then <[ nth 0 elements [] := remove_char NBSP (nth 1 elements []) ]> common
  else common.

Definition parse_common_data (data : VehicleData) (car_page_html : CarPage)
    : Exc VehicleData :=
  let common : gmap str str := ∅ in
  brand ← attr_of (marka car_page_html);
  let common := <[ Keys.brand := brand ]> common in
  model ← attr_of (modell car_page_html);
  let common := <[ Keys.model := model ]> common in
  let model_group_html := modellcsoport car_page_html in
  let common :=
    <[ Keys.model_group :=
         match model_group_html with None => [] | Some text => text end ]> common in
  rows ← attr_of (hirdetesadatok car_page_html);
  Ok (set_common (foldl parse_common_row common rows) data).

Definition detail_titles : list str :=
  [Keys.Belter; Keys.Muszaki; Keys.Kulter; Keys.Multimedia].

(** The body of the inner [for title in ...] loop, for one [detail]. *)
Definition parse_detail_title (text : str)
    (details : gmap str (list str)) (title : str) : gmap str (list str) :=
  if contains title text
  then let options := slice 0 (-1) (split LF text) in
       <[ title := slice_from 1 options ]> details
  else details.

Definition parse_details_data (data : VehicleData) (car_page_html : CarPage)
    : Exc VehicleData :=
  let details := detail_divs car_page_html in
  Ok (set_details
        (foldl (λ acc detail, foldl (parse_detail_title detail) acc detail_titles)
               ∅ details)
        data).

Definition parse_description_data (data : VehicleData) (car_page_html : CarPage)
    : Exc VehicleData :=
  let description_html := leiras car_page_html in
  description ←
    match description_html with
    | None => Ok []
    | Some text => getitem (split LF text) 2
    end;
  let desc : gmap str DescValue := <[ Keys.Leiras := DStr description ]> ∅ in
  let else_description_html := egyebinformacio car_page_html in
  let else_description :=
    match else_description_html with
    | None => DStr []
    | Some text => DList (slice 3 (-1) (split LF text))
    end in
  Ok (set_description (<[ Keys.Egyeb := else_description ]> desc) data).

(** Lines 105 to 112 of [parse_car_page]: everything the [try] block
    does before it touches the crawler's fields. *)
Definition extract (w : World) (p : Params) (n : nat) (vehicle_link : str)
    : Exc VehicleData :=
  let data :=
    {| data_link := vehicle_link;
       data_id := List.last (split HYPHEN vehicle_link) [];
       data_images := []; data_common := ∅; data_details := ∅;
       data_description := ∅ |} in
  car_page_html ← requests_post w n vehicle_link (headers p) (cookies p);
  data ← parse_images w n data car_page_html;
  data ← parse_common_data data car_page_html;
  data ← parse_details_data data car_page_html;
  data ← parse_description_data data car_page_html;
  Ok data.

(** ** The crawler: [parse_car_page], the wave, [save_data], the driver *)

(** One statement on the crawler's fields: the new object, or the
    exception it raises (the object is then unchanged). *)
Definition Stmt : Type := CarCrawler → Exc CarCrawler.

(** [self.vehicle_data.append(data)] *)
Definition vehicle_data_append (data : VehicleData) : Stmt :=
  λ self, Ok (set_vehicle_data (vehicle_data self ++ [data]) self).

(** [self.processed_vehicle_links.add(vehicle_link)] *)
Definition processed_add (vehicle_link : str) : Stmt :=
  λ self, Ok (set_processed (processed_vehicle_links self ∪ {[vehicle_link]}) self).

(** [self.broken_vehicle_links.add(vehicle_link)] *)
Definition broken_add (vehicle_link : str) : Stmt :=
  λ self, Ok (set_broken (broken_vehicle_links self ∪ {[vehicle_link]}) self).

(** [self.new_vehicle_links.remove(vehicle_link)]: [KeyError] when absent. *)
Definition new_remove (vehicle_link : str) : Stmt :=
  λ self,
    if decide (vehicle_link ∈ new_vehicle_links self)
    then Ok (set_new (new_vehicle_links self ∖ {[vehicle_link]}) self)
    else Raise KeyError.

(** Runs statements in order.  Gives the object after each completed
    statement, the last object, and the exception that stopped the run. *)
Fixpoint run_block (block : list Stmt) (self : CarCrawler)
    : list CarCrawler * CarCrawler * option exn :=
  match block with
  | [] => ([], self, None)
  | st :: rest =>
      match st self with
      | Raise e => ([], self, Some e)
      | Ok self' =>
          let '(trace, final, r) := run_block rest self' in
          (self' :: trace, final, r)
      end
  end.

(** Lines 114 to 116. *)
Definition try_tail (data : VehicleData) (vehicle_link : str) : list Stmt :=
  [vehicle_data_append data; processed_add vehicle_link; new_remove vehicle_link].

(** Lines 119 and 120. *)
Definition except_body (vehicle_link : str) : list Stmt :=
  [new_remove vehicle_link; broken_add vehicle_link].

(** [parse_car_page], statement by statement: the objects it goes
    through, the object it leaves, and the exception that leaves the
    method ([None] when it returns). *)
Definition parse_car_page_steps (w : World) (n : nat)
    (self : CarCrawler) (vehicle_link : str)
    : list CarCrawler * CarCrawler * option exn :=
  let attempt :=
    match extract w (params self) n vehicle_link with
    | Raise e => ([], self, Some e)
    | Ok data => run_block (try_tail data vehicle_link) self
    end in
  match attempt with
  | (trace, self1, None) => (trace, self1, None)
  | (trace, self1, Some _) =>
      let '(trace2, self2, r) := run_block (except_body vehicle_link) self1 in
      (trace ++ trace2, self2, r)
  end.

Definition parse_car_page (w : World) (n : nat)
    (self : CarCrawler) (vehicle_link : str) : CarCrawler :=
  (parse_car_page_steps w n self vehicle_link).1.2.

(** The exception that leaves the task, if any. *)
Definition parse_car_page_escapes (w : World) (n : nat)
    (self : CarCrawler) (vehicle_link : str) : option exn :=
  (parse_car_page_steps w n self vehicle_link).2.


(** The tasks of the given links, run in that order. *)
Definition run_tasks (w : World) (n : nat)
    (self : CarCrawler) (links : list str) : CarCrawler :=
  foldl (parse_car_page w n) self links.

(** The pending links in the order in which the iterator yields them. *)
Definition yielded (sch : Schedule) (pending : gset str) : list str :=
  arrange (yield_picks sch) (elements pending).

(** The links the driver submits before the [for] loop ends: all of
    them, or those yielded before the iterator raises. *)
Definition submitted (sch : Schedule) (pending : gset str) : list str :=
  match changed_after sch with
  | None => yielded sch pending
  | Some k => take (S k) (yielded sch pending)
  end.

(** Whether the [for] loop of line 62 ends by [RuntimeError]: a task
    must have been submitted for the set to change. *)
Definition interrupted (sch : Schedule) (pending : gset str) : bool :=
  match changed_after sch, submitted sch pending with
  | Some _, _ :: _ => true
  | _, _ => false
  end.

(** The submitted links in the order in which their tasks finish. *)
Definition finished (sch : Schedule) (pending : gset str) : list str :=
  arrange (finish_picks sch) (submitted sch pending).

(** Lines 61 to 63: the crawler when the [with] block is left, all the
    submitted tasks having finished. *)
Definition dispatch (w : World) (n : nat) (self : CarCrawler) : CarCrawler :=
  run_tasks w n self (finished (schedule w n) (new_vehicle_links self)).

(** The exception with which the [with] block is left, if any. *)
Definition dispatch_raises (w : World) (n : nat) (self : CarCrawler)
    : option exn :=
  if interrupted (schedule w n) (new_vehicle_links self)
  then Some RuntimeError else None.

(** Line 58: [self.new_vehicle_links.update([...])]. *)
Definition update_new_links (hrefs : list str) (self : CarCrawler) : CarCrawler :=
  set_new (new_vehicle_links self ∪ list_to_set hrefs) self.

Definition default_limit : nat := 1000.
Definition broken_links_file : str := of_string "data/broken_links.pkl".

Definition export_file (timestamp : str) : str :=
  of_string "data/" ++ timestamp ++ of_string "_export.pkl".

(** [save_data(limit)], after wave [n].  The files are assumed writable. *)
Definition save_data (w : World) (n : nat) (limit : nat)
    (self : CarCrawler) : CarCrawler :=
  if (limit <=? length (vehicle_data self))%nat then
    let current_datetime_str := now w n in
    let filename := export_file current_datetime_str in
    let self := pickle_dump filename (PickledData (vehicle_data self)) self in
    let self := pickle_dump broken_links_file
                  (PickledLinks (broken_vehicle_links self)) self in
    set_vehicle_data [] self
  else self.

(** How a call of [iterate_over_available_cars] ends. *)
Inductive Outcome : Type :=
| Returned                 (* the [while] loop ended; the method returns *)
| Raised (e : exn)         (* an exception left the method *)
| OutOfFuel.               (* the model stopped: pages remain *)

(** The end of a run: its outcome, the crawler as it was left, and the
    URLs requested with [requests.get], in order. *)
Record Run : Type := {
  outcome : Outcome;
  crawler : CarCrawler;
  fetched : list (option str)
}.

(** Lines 50 and 51, and 72 and 73: fetch a result page and look up its
    next-page button. *)
Definition fetch_page (w : World) (n : nat) (url : option str)
    : Exc (ResultPage * option Anchor) :=
  next_page_html ←
    match url with
    | None => Raise MissingSchema
    | Some u => requests_get w n u
    end;
  li ← attr_of (li_next next_page_html);
  Ok (next_page_html, li).

(** The [while] loop, entered with result page [n] in [next_page_html]. *)
Fixpoint crawl_loop (fuel : nat) (w : World) (n : nat) (self : CarCrawler)
    (next_page_html : ResultPage) (next_page_button_html : option Anchor)
    (log : list (option str)) : Run :=
  match next_page_button_html with
  | None => {| outcome := Returned; crawler := self; fetched := log |}
  | Some button =>
      match fuel with
      | O => {| outcome := OutOfFuel; crawler := self; fetched := log |}
      | S fuel' =>
          let self := update_new_links (vehicle_hrefs next_page_html) self in
          match dispatch_raises w n self with
          | Some e =>
              {| outcome := Raised e; crawler := dispatch w n self;
                 fetched := log |}
          | None =>
              let self := dispatch w n self in
              let self := save_data w n default_limit self in
              let next_page_url := href button in
              match fetch_page w (S n) next_page_url with
              | Raise e =>
                  {| outcome := Raised e; crawler := self;
                     fetched := log ++ [next_page_url] |}
              | Ok (html, button') =>
                  crawl_loop fuel' w (S n) self html button'
                    (log ++ [next_page_url])
              end
          end
      end
  end.

Definition new_crawler (p : Params) : CarCrawler :=
  {| params := p; vehicle_data := [];
     new_vehicle_links := ∅; broken_vehicle_links := ∅;
     processed_vehicle_links := ∅; written := [] |}.

Definition iterate_over_available_cars (fuel : nat) (w : World) (p : Params) : Run :=
  let self := new_crawler p in
  let next_page_url := Some (website p) in
  match fetch_page w 0 next_page_url with
  | Raise e => {| outcome := Raised e; crawler := self; fetched := [next_page_url] |}
  | Ok (html, button) => crawl_loop fuel w 0 self html button [next_page_url]
  end.

(** ** Notions used in the statements *)

(** The object left by a task whose extraction gave [data], on a
    pending link. *)
Definition after_success (data : VehicleData) (l : str) (self : CarCrawler)
    : CarCrawler :=
  set_new (new_vehicle_links self ∖ {[l]})
    (set_processed (processed_vehicle_links self ∪ {[l]})
       (set_vehicle_data (vehicle_data self ++ [data]) self)).

(** The object left by a task whose extraction raised, on a pending link. *)
Definition after_failure (l : str) (self : CarCrawler) : CarCrawler :=
  set_broken (broken_vehicle_links self ∪ {[l]})
    (set_new (new_vehicle_links self ∖ {[l]}) self).

(** Whether the extraction of link [l] during wave [n] succeeds. *)
Definition extract_ok (w : World) (p : Params) (n : nat) (l : str) : bool :=
  match extract w p n l with Ok _ => true | Raise _ => false end.

(** The record extracted for link [l] during wave [n], if any. *)
Definition extracted (w : World) (p : Params) (n : nat) (l : str)
    : option VehicleData :=
  match extract w p n l with Ok d => Some d | Raise _ => None end.

(** An export file (a pickled [vehicle_data]), as opposed to the
    broken-links file. *)
Definition is_batch (f : str * Pickle) : bool :=
  match f.2 with PickledData _ => true | PickledLinks _ => false end.

(** The files written by a step from [self] to [s']. *)
Definition written_since (self s' : CarCrawler) : list (str * Pickle) :=
  drop (length (written self)) (written s').


(** The cells of a row that are not blank. *)
Definition nonempty_cells (row : list str) : list str :=
  filter (λ cell, strip cell ≠ []) row.

(** The keys set by lines 146 to 150, before the table is read. *)
Definition fixed_common_keys : list str :=
  [Keys.brand; Keys.model; Keys.model_group].

(** The page with another answer to the model-group query. *)
Definition with_modellcsoport (v : option str) (page : CarPage) : CarPage :=
  {| thumbnails := thumbnails page; marka := marka page; modell := modell page;
     modellcsoport := v; hirdetesadatok := hirdetesadatok page;
     detail_divs := detail_divs page; leiras := leiras page;
     egyebinformacio := egyebinformacio page |}.

(** One turn of the [while] loop whose wave is not interrupted, up to
    the request for the next page: lines 57 to 67, for result page [n]
    listing [hrefs]. *)
Definition loop_body (w : World) (n : nat) (hrefs : list str)
    (self : CarCrawler) : CarCrawler :=
  save_data w n default_limit (dispatch w n (update_new_links hrefs self)).

(** The records held by the export files of a list of written files, in
    the order of writing. *)
Definition exported_records (files : list (str * Pickle)) : list VehicleData :=
  flat_map (λ f, match f.2 with
                 | PickledData records => records
                 | PickledLinks _ => []
                 end) files.

(** Every record extracted so far: those already exported, then those
    still in [vehicle_data]. *)
Definition all_records (s : CarCrawler) : list VehicleData :=
  exported_records (written s) ++ vehicle_data s.

(** The set of links of the two history sets. *)
Definition seen_links (s : CarCrawler) : gset str :=
  processed_vehicle_links s ∪ broken_vehicle_links s.

(** A string with no white space at either end. *)
Definition trimmed (s : str) : Prop :=
  (∀ c, head s = Some c → isspace c = false) ∧
  (∀ c, last s = Some c → isspace c = false).

(** [b] continues [a]: same parameters, and nothing of the history of
    [a] (processed links, broken links, extracted records, written
    files) is missing or reordered in [b]. *)
Definition continues (a b : CarCrawler) : Prop :=
  params b = params a ∧
  processed_vehicle_links a ⊆ processed_vehicle_links b ∧
  broken_vehicle_links a ⊆ broken_vehicle_links b ∧
  all_records a `prefix_of` all_records b ∧
  written a `prefix_of` written b.

(** The link was found on a result page of the run that has a
    next-page link: request number [n] of the run, for [u], was answered
    with such a page listing [l]. *)
Definition listed (w : World) (log : list (option str)) (l : str) : Prop :=
  ∃ n u page b,
    log !! n = Some (Some u) ∧
    requests_get w n u = Ok page ∧ li_next page = Some (Some b) ∧
    l ∈ vehicle_hrefs page.

(** Every export file among [files] holds at least [limit] records. *)
Definition exports_at_least (limit : nat) (files : list (str * Pickle)) : Prop :=
  Forall (λ f, match f.2 with
               | PickledData records => (limit ≤ length records)%nat
               | PickledLinks _ => True
               end) files.

(** The processed links are exactly the links of the records. *)
Definition records_match (s : CarCrawler) : Prop :=
  processed_vehicle_links s = list_to_set (data_link <$> all_records s).

(** What has been written are export files of at least [default_limit]
    records (each followed by the broken-links file). *)
Definition exports_ok (s : CarCrawler) : Prop :=
  exports_at_least default_limit (written s) ∧
  (written s = [] ∨ (default_limit ≤ length (exported_records (written s)))%nat).

(** Every link the crawler holds satisfies [L]. *)
Definition all_links (L : str → Prop) (s : CarCrawler) : Prop :=
  ∀ l, l ∈ new_vehicle_links s ∪ seen_links s → L l.

(** The options read from the text of one details block: its lines
    without the first and the last. *)
Definition detail_options (text : str) : list str :=
  drop 1 (take (length (split LF text) - 1) (split LF text)).

(** The body of the outer loop of [parse_details_data]. *)
Definition parse_detail (details : gmap str (list str)) (text : str)
    : gmap str (list str) :=
  foldl (parse_detail_title text) details detail_titles.

(** An entry as the loop over the table rows writes it: the key is not
    empty and has no white space at either end, the value is not empty
    and holds no no-break space. *)
Definition clean_entry (k v : str) : Prop :=
  k ≠ [] ∧ trimmed k ∧ v ≠ [] ∧ NBSP ∉ v.

(** ** Sample worlds and runs *)

Module Sample.

Definition site : str := of_string "/talalatilista/page1".
Definition page2 : str := of_string "/talalatilista/page2".
Definition page3 : str := of_string "/talalatilista/page3".
Definition car1 : str := of_string "/szemelyauto/astra-101".
Definition car2 : str := of_string "/szemelyauto/a4-102".

Definition p : Params := {| website := site; headers := ∅; cookies := ∅ |}.

(** The table of the specification's example. *)
Definition example_rows : list (list str) :=
  [ [of_string "Price"; of_string "10000"];
    [of_string "Color"];
    [of_string "Year"; of_string "2020"] ].

(** A car page with the mandatory parts only. *)
Definition plain_car : CarPage :=
  {| thumbnails := [];
     marka := Some (of_string "Opel");
     modell := Some (of_string "Astra");
     modellcsoport := None;
     hirdetesadatok := Some example_rows;
     detail_divs := [];
     leiras := None;
     egyebinformacio := None |}.

Definition listing (links : list str) (next : option str) : ResultPage :=
  {| li_next := Some (Some {| href := next |}); vehicle_hrefs := links |}.

(** The last page of the pager: the item is there, without a link. *)
Definition last_page (links : list str) : ResultPage :=
  {| li_next := Some None; vehicle_hrefs := links |}.

(** A page without any pager item. *)
Definition bare_page (links : list str) : ResultPage :=
  {| li_next := None; vehicle_hrefs := links |}.

Definition empty_data (l : str) : VehicleData :=
  {| data_link := l; data_id := []; data_images := []; data_common := ∅;
     data_details := ∅; data_description := ∅ |}.

Definition blank (new : gset str) : CarCrawler :=
  {| params := p; vehicle_data := []; new_vehicle_links := new;
     broken_vehicle_links := ∅; processed_vehicle_links := ∅; written := [] |}.

(** The schedule of a wave whose tasks all finish after the driver's
    loop has ended, in the order of their submission. *)
Definition calm : nat → Schedule :=
  λ _, {| yield_picks := []; changed_after := None; finish_picks := [] |}.

(** The schedule of a wave whose first task finishes before the driver
    asks the iterator again. *)
Definition hasty : nat → Schedule :=
  λ _, {| yield_picks := []; changed_after := Some 0%nat; finish_picks := [] |}.

(** Three result pages; the first two both list [car1]; the car page
    answers during the first wave and the connection fails during the
    second. *)
Definition flaky : World :=
  {| requests_get := λ n _,
       match n with
       | 0%nat => Ok (listing [car1] (Some page2))
       | 1%nat => Ok (listing [car1] (Some page3))
       | _ => Ok (last_page [])
       end;
     requests_post := λ n _ _ _,
       match n with
       | 0%nat => Ok plain_car
       | _ => Raise NetworkError
       end;
     urlopen := λ _ _, Raise NetworkError;
     now := λ _, of_string "2020_01_01_00_00_00";
     schedule := calm |}.

(** The site answers for the first result page only. *)
Definition second_page_down : World :=
  {| requests_get := λ n _,
       match n with
       | 0%nat => Ok (listing [car1] (Some page2))
       | _ => Raise NetworkError
       end;
     requests_post := λ _ _ _ _, Ok plain_car;
     urlopen := λ _ _, Raise NetworkError;
     now := λ _, of_string "2020_01_01_00_00_00";
     schedule := calm |}.

(** The site does not answer at all. *)
Definition site_down : World :=
  {| requests_get := λ _ _, Raise NetworkError;
     requests_post := λ _ _ _ _, Raise NetworkError;
     urlopen := λ _ _, Raise NetworkError;
     now := λ _, of_string "2020_01_01_00_00_00";
     schedule := calm |}.

(** The first result page lists two cars and has a next-page link; no
    car page can be fetched, and the first task of the wave has ended
    when the driver asks the iterator for the second link. *)
Definition failing_fast : World :=
  {| requests_get := λ _ _, Ok (listing [car1; car2] (Some page2));
     requests_post := λ _ _ _ _, Raise NetworkError;
     urlopen := λ _ _, Raise NetworkError;
     now := λ _, of_string "2020_01_01_00_00_00";
     schedule := hasty |}.

(** A single result page, without pager. *)
Definition no_pager : World :=
  {| requests_get := λ _ _, Ok (bare_page [car1]);
     requests_post := λ _ _ _ _, Ok plain_car;
     urlopen := λ _ _, Raise NetworkError;
     now := λ _, of_string "2020_01_01_00_00_00";
     schedule := calm |}.

(** A car page whose first description section has two lines only. *)
Definition short_description_car : CarPage :=
  {| thumbnails := []; marka := None; modell := None; modellcsoport := None;
     hirdetesadatok := None; detail_divs := [];
     leiras := Some (of_string "one" ++ [LF] ++ of_string "two");
     egyebinformacio := None |}.

(** A site of one result page, which lists two cars. *)
Definition one_page : World :=
  {| requests_get := λ _ _, Ok (last_page [car1; car2]);
     requests_post := λ _ _ _ _, Ok plain_car;
     urlopen := λ _ _, Raise NetworkError;
     now := λ _, of_string "2020_01_01_00_00_00";
     schedule := calm |}.

(** A car page with one details block: a title and two options. *)
Definition interior_block : str :=
  [LF] ++ Keys.Belter ++ [LF] ++ of_string "klima" ++ [LF]
    ++ of_string "ABS" ++ [LF].

Definition detailed_car : CarPage :=
  {| thumbnails := []; marka := None; modell := None; modellcsoport := None;
     hirdetesadatok := None; detail_divs := [interior_block];
     leiras := None; egyebinformacio := None |}.

(** Every car page lacks its attribute table. *)
Definition no_table : World :=
  {| requests_get := λ _ _, Ok (last_page []);
     requests_post := λ _ _ _ _,
       Ok {| thumbnails := []; marka := Some (of_string "Opel");
             modell := Some (of_string "Astra"); modellcsoport := None;
             hirdetesadatok := None; detail_divs := [];
             leiras := None; egyebinformacio := None |};
     urlopen := λ _ _, Raise NetworkError;
     now := λ _, of_string "2020_01_01_00_00_00";
     schedule := calm |}.

End Sample.

Module Merge.

(** The crawler of the run on [Sample.flaky] when its first wave is over. *)
Definition after_first_wave : CarCrawler :=
  dispatch Sample.flaky 0
    (update_new_links [Sample.car1] (new_crawler Sample.p)).

End Merge.

Module Relisted.

(** The second wave of the run on [Sample.flaky]: the second result
    page lists [car1] again. *)
Definition second_wave_start : CarCrawler :=
  update_new_links [Sample.car1] Merge.after_first_wave.

Definition after_second_wave : CarCrawler :=
  dispatch Sample.flaky 1 second_wave_start.

End Relisted.

Module TableExample.

(** The mapping extracted from [Sample.plain_car]. *)
Definition common : gmap str str :=
  <[ of_string "Year" := of_string "2020" ]>
    (<[ of_string "Price" := of_string "10000" ]>
       (<[ Keys.model_group := [] ]>
          (<[ Keys.model := of_string "Astra" ]>
             (<[ Keys.brand := of_string "Opel" ]> ∅)))).

End TableExample.

(** * Properties *)

(** ** Python strings *)

Example split_lines :
  split LF (of_string "a" ++ [LF] ++ of_string "b" ++ [LF]) =
  [of_string "a"; of_string "b"; []].
Proof. reflexivity. Qed.

Example strip_nbsp : strip ([NBSP; 32] ++ of_string "x y" ++ [9; NBSP]) = of_string "x y".
Proof. reflexivity. Qed.

Example slice_3_m1 : slice 3 (-1) [1;2;3;4;5;6] = [4;5].
Proof. reflexivity. Qed.

Example slice_3_m1_short : slice 3 (-1) [1;2;3] = [].
Proof. reflexivity. Qed.

(** A first description section of fewer than three lines: [split('\n')[2]]
    is out of range. *)
Example short_description_raises :
  parse_description_data (Sample.empty_data Sample.car1)
    {| thumbnails := []; marka := None; modell := None; modellcsoport := None;
       hirdetesadatok := None; detail_divs := [];
       leiras := Some (of_string "one" ++ [LF] ++ of_string "two");
       egyebinformacio := None |}
  = Raise IndexError.
Proof. reflexivity. Qed.

(** The identifier of a car is what follows the last hyphen of its link. *)
Example car1_id :
  List.last (split HYPHEN Sample.car1) [] = of_string "101".
Proof. reflexivity. Qed.

(** Settles a closed decidable statement, such as the membership of a
    given link in a computed set, by evaluating its decision procedure. *)
Ltac decide_by_computation :=
  apply (bool_decide_unpack _); vm_compute; reflexivity.

(** ** Basic facts about one task *)

Section Task.
Context (w : World) (n : nat).

Lemma steps_success self l data :
  l ∈ new_vehicle_links self →
  extract w (params self) n l = Ok data →
  parse_car_page_steps w n self l =
    ([ set_vehicle_data (vehicle_data self ++ [data]) self;
       set_processed (processed_vehicle_links self ∪ {[l]})
         (set_vehicle_data (vehicle_data self ++ [data]) self);
       after_success data l self ],
     after_success data l self, None).
Proof.
  intros Hin Hex. unfold parse_car_page_steps. rewrite Hex. simpl.
  unfold new_remove. simpl. rewrite decide_True by done. reflexivity.
Qed.

Lemma steps_failure self l e :
  l ∈ new_vehicle_links self →
  extract w (params self) n l = Raise e →
  parse_car_page_steps w n self l =
    ([ set_new (new_vehicle_links self ∖ {[l]}) self; after_failure l self ],
     after_failure l self, None).
Proof.
  intros Hin Hex. unfold parse_car_page_steps. rewrite Hex. simpl.
  unfold new_remove. rewrite decide_True by done. reflexivity.
Qed.

Lemma parse_car_page_success self l data :
  l ∈ new_vehicle_links self →
  extract w (params self) n l = Ok data →
  parse_car_page w n self l = after_success data l self.
Proof.
  intros Hin Hex. unfold parse_car_page.
  by rewrite (steps_success _ _ _ Hin Hex).
Qed.

Lemma parse_car_page_failure self l e :
  l ∈ new_vehicle_links self →
  extract w (params self) n l = Raise e →
  parse_car_page w n self l = after_failure l self.
Proof.
  intros Hin Hex. unfold parse_car_page.
  by rewrite (steps_failure _ _ _ Hin Hex).
Qed.

(** A task on a pending link never lets an exception out. *)
Lemma pending_task_returns self l :
  l ∈ new_vehicle_links self → parse_car_page_escapes w n self l = None.
Proof.
  intros Hin. unfold parse_car_page_escapes.
  destruct (extract w (params self) n l) as [data|e] eqn:Hex.
  - by rewrite (steps_success _ _ _ Hin Hex).
  - by rewrite (steps_failure _ _ _ Hin Hex).
Qed.

Lemma parse_car_page_params self l :
  params (parse_car_page w n self l) = params self.
Proof.
  unfold parse_car_page, parse_car_page_steps.
  destruct (extract w (params self) n l) as [data|e]; simpl;
    unfold new_remove; simpl; repeat (case_decide; simpl); reflexivity.
Qed.

Lemma parse_car_page_written self l :
  written (parse_car_page w n self l) = written self.
Proof.
  unfold parse_car_page, parse_car_page_steps.
  destruct (extract w (params self) n l) as [data|e]; simpl;
    unfold new_remove; simpl; repeat (case_decide; simpl); reflexivity.
Qed.

End Task.

(** ** Basic facts about one wave *)

Section Wave.
Context (w : World) (n : nat).

Lemma run_tasks_spec links : ∀ self,
  NoDup links →
  (∀ l, l ∈ links → l ∈ new_vehicle_links self) →
  let s' := run_tasks w n self links in
  params s' = params self ∧
  written s' = written self ∧
  vehicle_data s' = vehicle_data self ++ omap (extracted w (params self) n) links ∧
  new_vehicle_links s' = new_vehicle_links self ∖ list_to_set links ∧
  processed_vehicle_links s' =
    processed_vehicle_links self
      ∪ list_to_set (filter (λ l, extract_ok w (params self) n l) links) ∧
  broken_vehicle_links s' =
    broken_vehicle_links self
      ∪ list_to_set (filter (λ l, ¬ extract_ok w (params self) n l) links).
Proof.
  induction links as [|l links IH]; intros self Hnd Hin; simpl.
  - rewrite app_nil_r. repeat split; set_solver.
  - apply NoDup_cons in Hnd as [Hl Hnd].
    assert (Hlin : l ∈ new_vehicle_links self) by (apply Hin; left).
    pose proof (parse_car_page_params w n self l) as Hp.
    pose proof (parse_car_page_written w n self l) as Hw.
    destruct (extract w (params self) n l) as [data|e] eqn:Hex.
    + pose proof (parse_car_page_success w n self l data Hlin Hex) as Hs.
      specialize (IH (parse_car_page w n self l) Hnd).
      destruct IH as (IH1 & IH2 & IH3 & IH4 & IH5 & IH6).
      { intros l' Hl'. rewrite Hs. simpl.
        apply elem_of_difference. split; [apply Hin; by right|].
        intros ->%elem_of_singleton. done. }
      rewrite Hp in IH3, IH5, IH6.
      unfold run_tasks in *. simpl.
      rewrite IH1, IH2, IH3, IH4, IH5, IH6, Hp, Hw, Hs. simpl.
      unfold extracted at 2. rewrite Hex. simpl.
      rewrite <- app_assoc. simpl.
      rewrite (filter_cons_True _ l) by (unfold extract_ok; by rewrite Hex).
      rewrite (filter_cons_False _ l)
        by (unfold extract_ok; rewrite Hex; simpl; tauto).
      repeat split; set_solver.
    + pose proof (parse_car_page_failure w n self l e Hlin Hex) as Hs.
      specialize (IH (parse_car_page w n self l) Hnd).
      destruct IH as (IH1 & IH2 & IH3 & IH4 & IH5 & IH6).
      { intros l' Hl'. rewrite Hs. simpl.
        apply elem_of_difference. split; [apply Hin; by right|].
        intros ->%elem_of_singleton. done. }
      rewrite Hp in IH3, IH5, IH6.
      unfold run_tasks in *. simpl.
      rewrite IH1, IH2, IH3, IH4, IH5, IH6, Hp, Hw, Hs. simpl.
      unfold extracted at 2. rewrite Hex. simpl.
      rewrite (filter_cons_False _ l)
        by (unfold extract_ok; rewrite Hex; simpl; tauto).
      rewrite (filter_cons_True _ l)
        by (unfold extract_ok; rewrite Hex; simpl; tauto).
      repeat split; set_solver.
Qed.

(** [arrange] only changes the order. *)
Lemma arrange_Permutation {A} (picks : list nat) : ∀ l : list A,
  arrange picks l ≡ₚ l.
Proof.
  induction picks as [|i picks IH]; intros l; simpl; [done|].
  destruct (l !! (i mod length l)%nat) as [x|] eqn:Hx; [|done].
  rewrite IH. symmetry. by apply delete_Permutation.
Qed.

(** Every order of a list is the order of some picks. *)
Lemma arrange_any {A} (l' : list A) : ∀ l,
  l ≡ₚ l' → ∃ picks, arrange picks l = l'.
Proof.
  induction l' as [|x l' IH]; intros l Hperm.
  - apply Permutation_nil_r in Hperm as ->. by exists [].
  - assert (Hx : x ∈ l) by (rewrite Hperm; by left).
    apply list_elem_of_lookup in Hx as [i Hi].
    pose proof (lookup_lt_Some _ _ _ Hi) as Hlt.
    destruct (IH (delete i l)) as [picks Hpicks].
    { apply (Permutation_cons_inv (a := x)).
      rewrite <- Hperm. symmetry. by apply delete_Permutation. }
    exists (i :: picks). simpl. rewrite Nat.mod_small by done.
    rewrite Hi. by rewrite Hpicks.
Qed.

Lemma yielded_spec (sch : Schedule) (pending : gset str) :
  NoDup (yielded sch pending) ∧
  ∀ l, l ∈ yielded sch pending ↔ l ∈ pending.
Proof.
  unfold yielded. split.
  - rewrite arrange_Permutation. apply NoDup_elements.
  - intros l. rewrite arrange_Permutation. apply elem_of_elements.
Qed.

Lemma submitted_spec (sch : Schedule) (pending : gset str) :
  NoDup (submitted sch pending) ∧
  (∀ l, l ∈ submitted sch pending → l ∈ pending) ∧
  (interrupted sch pending = false →
   ∀ l, l ∈ pending → l ∈ submitted sch pending).
Proof.
  destruct (yielded_spec sch pending) as [Hnd Hin].
  unfold interrupted, submitted.
  destruct (changed_after sch) as [k|]; [|by split; [|split; intros l; apply Hin]].
  split; [eapply sublist_NoDup; [exact Hnd|apply sublist_take]|]. split.
  - intros l Hl. apply Hin.
    apply elem_of_take in Hl as (i & Hi & _). by eapply list_elem_of_lookup_2.
  - destruct (yielded sch pending) as [|x rest]; simpl; [|done].
    intros _ l Hl. by apply Hin in Hl.
Qed.

Lemma finished_spec (sch : Schedule) (pending : gset str) :
  NoDup (finished sch pending) ∧
  ∀ l, l ∈ finished sch pending ↔ l ∈ submitted sch pending.
Proof.
  destruct (submitted_spec sch pending) as (Hnd & _).
  unfold finished. split.
  - by rewrite arrange_Permutation.
  - intros l. by rewrite arrange_Permutation.
Qed.

(** Every way a wave can go is the way of some schedule: any order of
    the pending links, any number of them submitted before the iterator
    raises (or all of them without interruption), and any order in
    which the submitted tasks finish. *)
Lemma schedule_any (pending : gset str) (order fin : list str) (stop : option nat) :
  order ≡ₚ elements pending →
  fin ≡ₚ match stop with None => order | Some k => take (S k) order end →
  ∃ sch,
    changed_after sch = stop ∧
    yielded sch pending = order ∧
    submitted sch pending
      = match stop with None => order | Some k => take (S k) order end ∧
    finished sch pending = fin.
Proof.
  intros Horder Hfin.
  destruct (arrange_any order (elements pending)) as [yp Hyp]; [done|].
  destruct (arrange_any fin
              match stop with None => order | Some k => take (S k) order end)
    as [fp Hfp]; [done|].
  exists {| yield_picks := yp; changed_after := stop; finish_picks := fp |}.
  unfold finished, submitted, yielded. simpl. rewrite Hyp.
  split; [done|]. split; [done|]. split; [done|]. exact Hfp.
Qed.

(** The wave, whatever its schedule. *)
Lemma dispatch_spec self :
  let s' := dispatch w n self in
  let sch := schedule w n in
  params s' = params self ∧
  written s' = written self ∧
  vehicle_data s' =
    vehicle_data self
      ++ omap (extracted w (params self) n) (finished sch (new_vehicle_links self)) ∧
  (∀ l, l ∈ new_vehicle_links s' ↔
        l ∈ new_vehicle_links self ∧ l ∉ submitted sch (new_vehicle_links self)) ∧
  (∀ l, l ∈ processed_vehicle_links s' ↔
        l ∈ processed_vehicle_links self ∨
        (l ∈ submitted sch (new_vehicle_links self) ∧
         extract_ok w (params self) n l)) ∧
  (∀ l, l ∈ broken_vehicle_links s' ↔
        l ∈ broken_vehicle_links self ∨
        (l ∈ submitted sch (new_vehicle_links self) ∧
         ¬ extract_ok w (params self) n l)).
Proof.
  unfold dispatch.
  destruct (finished_spec (schedule w n) (new_vehicle_links self)) as [Hnd Hfin].
  destruct (submitted_spec (schedule w n) (new_vehicle_links self))
    as (_ & Hsub & _).
  destruct (run_tasks_spec (finished (schedule w n) (new_vehicle_links self)) self)
    as (H1 & H2 & H3 & H4 & H5 & H6).
  { exact Hnd. }
  { intros l Hl. apply Hsub. by apply Hfin. }
  simpl. split; [done|]. split; [done|]. split; [done|]. split; [|split].
  - intros l. rewrite H4, elem_of_difference, elem_of_list_to_set, Hfin. done.
  - intros l.
    rewrite H5, elem_of_union, elem_of_list_to_set, list_elem_of_filter, Hfin.
    tauto.
  - intros l.
    rewrite H6, elem_of_union, elem_of_list_to_set, list_elem_of_filter, Hfin.
    tauto.
Qed.

(** A wave that is not interrupted empties the pending set. *)
Lemma dispatch_complete self :
  dispatch_raises w n self = None →
  new_vehicle_links (dispatch w n self) = ∅ ∧
  ∀ l, l ∈ new_vehicle_links self →
       l ∈ submitted (schedule w n) (new_vehicle_links self).
Proof.
  unfold dispatch_raises.
  destruct (interrupted (schedule w n) (new_vehicle_links self)) eqn:Hint; [done|].
  intros _.
  destruct (submitted_spec (schedule w n) (new_vehicle_links self))
    as (_ & _ & Hall).
  specialize (Hall Hint).
  destruct (dispatch_spec self) as (_ & _ & _ & Hnew & _).
  split; [|exact Hall].
  apply set_eq. intros l. rewrite Hnew. split; [|set_solver].
  intros [Hl Hn]. exfalso. apply Hn. by apply Hall.
Qed.

End Wave.

(** ** [save_data]: the flush check *)

(** C5. [save_data] with fewer records than [limit] in [vehicle_data]
    writes no file and changes nothing; with [limit] records or more it
    writes one export file holding the whole of [vehicle_data] (and the
    broken-links file after it) and leaves [vehicle_data] empty.  The
    driver calls it with the default limit, 1000. *)
Theorem save_data_threshold (w : World) (n limit : nat) (self : CarCrawler) :
  ((length (vehicle_data self) < limit)%nat →
     save_data w n limit self = self) ∧
  ((limit ≤ length (vehicle_data self))%nat →
     written (save_data w n limit self) =
       written self ++
         [ (export_file (now w n), PickledData (vehicle_data self));
           (broken_links_file, PickledLinks (broken_vehicle_links self)) ] ∧
     filter is_batch (written_since self (save_data w n limit self)) =
       [ (export_file (now w n), PickledData (vehicle_data self)) ] ∧
     vehicle_data (save_data w n limit self) = []) ∧
  default_limit = 1000%nat.
Proof.
  unfold save_data. split; [|split; [|reflexivity]].
  - intros Hlt. apply Nat.leb_gt in Hlt. rewrite Hlt. reflexivity.
  - intros Hle. apply Nat.leb_le in Hle. rewrite Hle. simpl.
    rewrite <- app_assoc. simpl.
    split; [reflexivity|]. split; [|reflexivity].
    unfold written_since. simpl. rewrite <- app_assoc.
    rewrite drop_app_length. reflexivity.
Qed.

Lemma save_data_threshold_witness :
  save_data Sample.flaky 0 2 (Sample.blank ∅) = Sample.blank ∅ ∧
  vehicle_data
    (save_data Sample.flaky 0 1
       (set_vehicle_data [Sample.empty_data Sample.car1] (Sample.blank ∅))) = [].
Proof.
  split.
  - apply (save_data_threshold Sample.flaky 0 2 (Sample.blank ∅)). simpl. lia.
  - apply (save_data_threshold Sample.flaky 0 1
             (set_vehicle_data [Sample.empty_data Sample.car1] (Sample.blank ∅))).
    simpl. lia.
Defined.

(** C10. [save_data] leaves the three link sets as they were, whether it
    writes or not; when it writes, the broken-links file holds the
    broken set and that set is unchanged. *)
Theorem save_data_keeps_link_sets (w : World) (n limit : nat) (self : CarCrawler) :
  new_vehicle_links (save_data w n limit self) = new_vehicle_links self ∧
  processed_vehicle_links (save_data w n limit self) = processed_vehicle_links self ∧
  broken_vehicle_links (save_data w n limit self) = broken_vehicle_links self ∧
  ((limit ≤ length (vehicle_data self))%nat →
     (broken_links_file, PickledLinks (broken_vehicle_links self))
       ∈ written (save_data w n limit self)).
Proof.
  unfold save_data.
  destruct (limit <=? length (vehicle_data self))%nat eqn:Hle; simpl.
  - repeat split. intros _. set_solver.
  - repeat split. intros Hge. apply Nat.leb_gt in Hle. lia.
Qed.

Lemma save_data_keeps_link_sets_witness :
  broken_vehicle_links
    (save_data Sample.flaky 0 1
       (set_broken {[Sample.car2]}
          (set_vehicle_data [Sample.empty_data Sample.car1] (Sample.blank ∅))))
  = {[Sample.car2]}.
Proof.
  apply (save_data_keeps_link_sets Sample.flaky 0 1
           (set_broken {[Sample.car2]}
              (set_vehicle_data [Sample.empty_data Sample.car1] (Sample.blank ∅)))).
Defined.

Lemma save_data_params w n limit self :
  params (save_data w n limit self) = params self.
Proof. unfold save_data. by destruct (_ <=? _)%nat. Qed.

(** ** Merging the links of a result page *)

(** C2, as stated, fails: after the first wave of the run on
    [Sample.flaky] the link [car1] is processed and not pending; the
    second result page lists it again and the merge puts it back into
    the pending set. *)
Lemma processed_link_is_added_again :
  (Sample.car1 ∈ processed_vehicle_links Merge.after_first_wave) ∧
  (Sample.car1 ∉ new_vehicle_links Merge.after_first_wave) ∧
  (Sample.car1 ∈ new_vehicle_links
                   (update_new_links [Sample.car1] Merge.after_first_wave)).
Proof.
  split; [decide_by_computation|]. split; decide_by_computation.
Qed.

(** C2, amended.  The merge is the union of the pending set with the
    links of the page: a link is pending afterwards exactly when it was
    pending or is on the page, whatever the processed and broken sets
    hold; links that are already pending change nothing; the processed
    and broken sets are not touched. *)
Theorem update_new_links_is_union (hrefs : list str) (self : CarCrawler) :
  (∀ l, l ∈ new_vehicle_links (update_new_links hrefs self) ↔
        l ∈ new_vehicle_links self ∨ l ∈ hrefs) ∧
  ((∀ l, l ∈ hrefs → l ∈ new_vehicle_links self) →
     update_new_links hrefs self = self) ∧
  processed_vehicle_links (update_new_links hrefs self) = processed_vehicle_links self ∧
  broken_vehicle_links (update_new_links hrefs self) = broken_vehicle_links self.
Proof.
  unfold update_new_links. simpl. repeat split.
  - intros [H|H%elem_of_list_to_set]%elem_of_union; tauto.
  - intros [H|H]; apply elem_of_union; [left|right]; [done|].
    by apply elem_of_list_to_set.
  - intros Hall.
    assert (new_vehicle_links self ∪ list_to_set hrefs = new_vehicle_links self)
      as -> by set_solver.
    by destruct self.
Qed.

Lemma update_new_links_is_union_witness :
  update_new_links [Sample.car1] (Sample.blank {[Sample.car1]})
  = Sample.blank {[Sample.car1]}.
Proof.
  apply (update_new_links_is_union [Sample.car1] (Sample.blank {[Sample.car1]})).
  intros l ->%list_elem_of_singleton. simpl. by apply elem_of_singleton.
Defined.

(** ** The driver *)

(** One turn of the loop. *)
Lemma crawl_loop_step fuel w n self html b log :
  crawl_loop (S fuel) w n self html (Some b) log =
    match dispatch_raises w n (update_new_links (vehicle_hrefs html) self) with
    | Some e =>
        {| outcome := Raised e;
           crawler := dispatch w n (update_new_links (vehicle_hrefs html) self);
           fetched := log |}
    | None =>
        match fetch_page w (S n) (href b) with
        | Raise e =>
            {| outcome := Raised e;
               crawler := loop_body w n (vehicle_hrefs html) self;
               fetched := log ++ [href b] |}
        | Ok (html', b') =>
            crawl_loop fuel w (S n) (loop_body w n (vehicle_hrefs html) self)
              html' b' (log ++ [href b])
        end
    end.
Proof. reflexivity. Qed.

(** The loop never forgets a request: the requests made before it was
    entered open its log. *)
Lemma crawl_loop_log_prefix fuel : ∀ w n self html button log,
  log `prefix_of` fetched (crawl_loop fuel w n self html button log).
Proof.
  induction fuel as [|fuel IH]; intros w n self html button log;
    destruct button as [b|]; try done.
  rewrite crawl_loop_step.
  destruct (dispatch_raises w n _) as [e|]; [done|].
  destruct (fetch_page w (S n) (href b)) as [[html' button']|e]; simpl.
  - etrans; [|apply IH]. by apply prefix_app_r.
  - by apply prefix_app_r.
Qed.

(** A page whose pager item holds no link ends the loop: the method
    returns, the crawler and the list of requests are as they were. *)
Lemma crawl_loop_without_button fuel w n self html log :
  crawl_loop fuel w n self html None log =
    {| outcome := Returned; crawler := self; fetched := log |}.
Proof. by destruct fuel. Qed.

(** C6 at the failing input: a result page without any pager item (no
    [li] of class [next]) makes the method raise [AttributeError], both
    as first page and as a later page, where the claim wants a normal
    end. *)
Theorem page_without_pager_item_raises :
  li_next (Sample.bare_page [Sample.car1]) = None ∧
  outcome (iterate_over_available_cars 5 Sample.no_pager Sample.p)
    = Raised AttributeError ∧
  outcome (crawl_loop 5 Sample.no_pager 0 (new_crawler Sample.p)
             (Sample.listing [] (Some Sample.page2))
             (Some {| href := Some Sample.page2 |}) [Some Sample.site])
    = Raised AttributeError.
Proof. split; [|split]; vm_compute; reflexivity. Qed.

(** C7, as stated, fails: in the run on [Sample.second_page_down] the
    first result page is fetched and the fetch of the second one fails;
    the exception leaves the method. *)
Lemma later_page_fetch_failure_is_fatal :
  fetch_page Sample.second_page_down 0 (Some (website Sample.p))
    = Ok (Sample.listing [Sample.car1] (Some Sample.page2),
          Some {| href := Some Sample.page2 |}) ∧
  outcome (iterate_over_available_cars 5 Sample.second_page_down Sample.p)
    = Raised NetworkError.
Proof. split; vm_compute; reflexivity. Qed.

(** C7, amended.  The method fails whenever [requests.get] fails for a
    result page, the first one or any later one: when the driver gets
    to request a page (the wave of the page before has ended without
    interrupting the driver) and the request fails, the exception
    leaves [iterate_over_available_cars]. *)
Theorem any_page_fetch_failure_is_fatal :
  (∀ fuel w p e,
     requests_get w 0 (website p) = Raise e →
     outcome (iterate_over_available_cars fuel w p) = Raised e) ∧
  (∀ fuel w n self html button u log e,
     dispatch_raises w n (update_new_links (vehicle_hrefs html) self) = None →
     href button = Some u →
     requests_get w (S n) u = Raise e →
     outcome (crawl_loop (S fuel) w n self html (Some button) log) = Raised e ∧
     fetched (crawl_loop (S fuel) w n self html (Some button) log)
       = log ++ [Some u]).
Proof.
  split.
  - intros fuel w p e He. unfold iterate_over_available_cars, fetch_page.
    rewrite He. reflexivity.
  - intros fuel w n self html button u log e Hwave Hu He.
    rewrite crawl_loop_step, Hwave.
    unfold fetch_page. rewrite Hu, He. by split.
Qed.

Lemma any_page_fetch_failure_is_fatal_witness :
  outcome (iterate_over_available_cars 1 Sample.site_down Sample.p)
    = Raised NetworkError ∧
  outcome (crawl_loop 1 Sample.second_page_down 0 (new_crawler Sample.p)
             (Sample.listing [Sample.car1] (Some Sample.page2))
             (Some {| href := Some Sample.page2 |}) [])
    = Raised NetworkError.
Proof.
  split.
  - apply (proj1 any_page_fetch_failure_is_fatal 1%nat Sample.site_down Sample.p
             NetworkError).
    reflexivity.
  - exact (proj1
             (proj2 any_page_fetch_failure_is_fatal 0%nat Sample.second_page_down
                0%nat (new_crawler Sample.p)
                (Sample.listing [Sample.car1] (Some Sample.page2))
                {| href := Some Sample.page2 |} Sample.page2 [] NetworkError
                eq_refl eq_refl eq_refl)).
Defined.

(** ** The three link sets across tasks and waves *)

(** C1, as stated, fails: in the run on [Sample.flaky] the link [car1]
    is extracted during the first wave, listed again by the second
    result page, and its extraction fails during the second wave.  When
    that wave completes the link is in the processed set and in the
    broken set, and the run ends with both. *)
Lemma relisted_link_processed_and_broken :
  (Sample.car1 ∈ new_vehicle_links Relisted.second_wave_start) ∧
  (Sample.car1 ∈ processed_vehicle_links Relisted.after_second_wave) ∧
  (Sample.car1 ∈ broken_vehicle_links Relisted.after_second_wave) ∧
  outcome (iterate_over_available_cars 5 Sample.flaky Sample.p) = Returned ∧
  (Sample.car1 ∈ processed_vehicle_links
     (crawler (iterate_over_available_cars 5 Sample.flaky Sample.p))) ∧
  (Sample.car1 ∈ broken_vehicle_links
     (crawler (iterate_over_available_cars 5 Sample.flaky Sample.p))).
Proof.
  split; [decide_by_computation|]. split; [decide_by_computation|].
  split; [decide_by_computation|]. split; [vm_compute; reflexivity|].
  split; decide_by_computation.
Qed.

(** C1, amended.  When a wave completes, every link whose task the
    wave has submitted was pending, has left the pending set and is in
    the processed set or in the broken set; it is in exactly one of the
    two when it was in neither before the wave.  A wave that ends
    without interrupting the driver has submitted every pending link,
    and the pending set is then empty. *)
Theorem wave_settles_pending_links (w : World) (n : nat) (self : CarCrawler) (l : str) :
  l ∈ submitted (schedule w n) (new_vehicle_links self) →
  (l ∈ new_vehicle_links self) ∧
  (l ∉ new_vehicle_links (dispatch w n self)) ∧
  (l ∈ processed_vehicle_links (dispatch w n self) ∨
   l ∈ broken_vehicle_links (dispatch w n self)) ∧
  (l ∉ processed_vehicle_links self → l ∉ broken_vehicle_links self →
   ¬ (l ∈ processed_vehicle_links (dispatch w n self) ∧
      l ∈ broken_vehicle_links (dispatch w n self))) ∧
  (dispatch_raises w n self = None →
   (∀ l', l' ∈ new_vehicle_links self →
          l' ∈ submitted (schedule w n) (new_vehicle_links self)) ∧
   new_vehicle_links (dispatch w n self) = ∅).
Proof.
  intros Hsub.
  destruct (dispatch_spec w n self) as (_ & _ & _ & Hnew & Hproc & Hbrok).
  destruct (submitted_spec (schedule w n) (new_vehicle_links self))
    as (_ & Hpending & _).
  split; [by apply Hpending|].
  split; [intros [_ H]%Hnew; by apply H|]. split; [|split].
  - destruct (extract_ok w (params self) n l) eqn:Hok.
    + left. apply Hproc. right. split; [done|]. rewrite Hok. exact I.
    + right. apply Hbrok. right. split; [done|]. rewrite Hok. simpl. tauto.
  - intros Hp Hb [[?|[_ H1]]%Hproc [?|[_ H2]]%Hbrok]; done.
  - intros Hnone. destruct (dispatch_complete w n self Hnone) as [Hempty Hall].
    by split.
Qed.

Lemma wave_settles_pending_links_witness :
  (Sample.car1 ∈ processed_vehicle_links
                   (dispatch Sample.flaky 0 (Sample.blank {[Sample.car1]}))) ∨
  (Sample.car1 ∈ broken_vehicle_links
                   (dispatch Sample.flaky 0 (Sample.blank {[Sample.car1]}))).
Proof.
  assert (Hsub : Sample.car1 ∈ submitted (schedule Sample.flaky 0)
                   (new_vehicle_links (Sample.blank {[Sample.car1]})))
    by decide_by_computation.
  exact (proj1 (proj2 (proj2
           (wave_settles_pending_links Sample.flaky 0
              (Sample.blank {[Sample.car1]}) Sample.car1 Hsub)))).
Defined.




(** ** Failures inside a task *)

(** The exception of an extraction does not leave the task: on a
    pending link the handler moves the link to the broken set and
    nothing is recorded for it. *)
Lemma failed_task_is_contained
    (w : World) (n : nat) (self : CarCrawler) (l : str) (e : exn) :
  l ∈ new_vehicle_links self →
  extract w (params self) n l = Raise e →
  parse_car_page_escapes w n self l = None ∧
  (l ∈ broken_vehicle_links (parse_car_page w n self l)) ∧
  (l ∉ new_vehicle_links (parse_car_page w n self l)) ∧
  vehicle_data (parse_car_page w n self l) = vehicle_data self ∧
  processed_vehicle_links (parse_car_page w n self l) = processed_vehicle_links self.
Proof.
  intros Hin Hex.
  split; [by apply pending_task_returns|].
  rewrite (parse_car_page_failure w n self l e Hin Hex).
  unfold after_failure. simpl.
  split; [apply elem_of_union; right; by apply elem_of_singleton|].
  split; [intros [_ H]%elem_of_difference; apply H; by apply elem_of_singleton|].
  split; reflexivity.
Qed.

(** A wave that interrupts the driver ends the run: the flush check and
    the request for the next page are skipped. *)
Lemma interrupted_wave_ends_run fuel w n self html b log e :
  dispatch_raises w n (update_new_links (vehicle_hrefs html) self) = Some e →
  crawl_loop (S fuel) w n self html (Some b) log =
    {| outcome := Raised e;
       crawler := dispatch w n (update_new_links (vehicle_hrefs html) self);
       fetched := log |}.
Proof. intros H. by rewrite crawl_loop_step, H. Qed.

(** C4 at the failing input: the first result page lists two cars whose
    pages cannot be fetched, and the task of the first link submitted
    has ended when the driver asks the iterator for the second.  The
    failure stays inside the task and the link is moved to the broken
    set, as the claim says; but the handler has removed the link from
    the set the driver is iterating, so the driver ends by
    [RuntimeError]: the other link is never submitted and stays
    pending, and the next result page is never requested. *)
Theorem failed_task_then_driver_aborts :
  extract Sample.failing_fast Sample.p 0 Sample.car2 = Raise NetworkError ∧
  parse_car_page_escapes Sample.failing_fast 0
    (update_new_links [Sample.car1; Sample.car2] (new_crawler Sample.p))
    Sample.car2 = None ∧
  submitted (schedule Sample.failing_fast 0) {[Sample.car1; Sample.car2]}
    = [Sample.car2] ∧
  outcome (iterate_over_available_cars 5 Sample.failing_fast Sample.p)
    = Raised RuntimeError ∧
  fetched (iterate_over_available_cars 5 Sample.failing_fast Sample.p)
    = [Some Sample.site] ∧
  (Sample.car2 ∈ broken_vehicle_links
     (crawler (iterate_over_available_cars 5 Sample.failing_fast Sample.p))) ∧
  (Sample.car1 ∈ new_vehicle_links
     (crawler (iterate_over_available_cars 5 Sample.failing_fast Sample.p))) ∧
  (Sample.car1 ∉ seen_links
     (crawler (iterate_over_available_cars 5 Sample.failing_fast Sample.p))).
Proof.
  split; [reflexivity|]. split; [vm_compute; reflexivity|].
  split; [vm_compute; reflexivity|]. split; [vm_compute; reflexivity|].
  split; [vm_compute; reflexivity|]. split; [decide_by_computation|].
  split; decide_by_computation.
Qed.

(** ** The attribute table of a car page *)

Lemma truthy_nonempty (s : str) : truthy s ↔ s ≠ [].
Proof. destruct s; simpl; split; done. Qed.

(** Lines 156 and 157 keep the non-blank cells, stripped. *)
Lemma row_elements_nonempty_cells (row : list str) :
  row_elements row = strip <$> nonempty_cells row.
Proof.
  unfold row_elements, nonempty_cells.
  induction row as [|cell row IH]; [reflexivity|].
  rewrite !filter_cons.
  destruct (decide (truthy (strip cell))) as [Ht|Ht];
    destruct (decide (strip cell ≠ [])) as [Hn|Hn];
    try (apply truthy_nonempty in Ht; done);
    try (exfalso; apply Ht; by apply truthy_nonempty).
  - simpl. rewrite filter_cons. rewrite decide_True by done.
    f_equal. exact IH.
  - exact IH.
Qed.

Lemma parse_common_row_two common row k v :
  row_elements row = [k; v] →
  parse_common_row common row = <[ k := remove_char NBSP v ]> common.
Proof. intros H. unfold parse_common_row. rewrite H. reflexivity. Qed.

Lemma parse_common_row_other common row :
  length (row_elements row) ≠ 2%nat →
  parse_common_row common row = common.
Proof.
  intros H. unfold parse_common_row.
  apply Nat.eqb_neq in H. by rewrite H.
Qed.

Lemma length_two {A} (l : list A) :
  length l = 2%nat → ∃ a b, l = [a; b].
Proof. destruct l as [|a [|b [|c l]]]; simpl; try lia. eauto. Qed.

(** The keys bound after the loop over the rows. *)
Lemma foldl_parse_common_row_keys rows : ∀ (common : gmap str str) k,
  is_Some (foldl parse_common_row common rows !! k) ↔
  is_Some (common !! k) ∨ ∃ row v, row ∈ rows ∧ row_elements row = [k; v].
Proof.
  induction rows as [|row rows IH]; intros common k; simpl.
  - split; [by left|]. intros [H|(row & v & Hin & _)]; [done|].
    by apply elem_of_nil in Hin.
  - rewrite IH. split.
    + intros [H|(row' & v & Hin & Hrow)].
      * destruct (decide (length (row_elements row) = 2%nat)) as [H2|H2].
        -- destruct (length_two _ H2) as (k' & v' & Hkv).
           rewrite (parse_common_row_two _ _ _ _ Hkv) in H.
           destruct (decide (k' = k)) as [->|Hne].
           ++ right. exists row, v'. split; [by left|done].
           ++ rewrite lookup_insert_ne in H by done. by left.
        -- rewrite (parse_common_row_other _ _ H2) in H. by left.
      * right. exists row', v. split; [by right|done].
    + intros [H|(row' & v & Hin & Hrow)].
      * left.
        destruct (decide (length (row_elements row) = 2%nat)) as [H2|H2].
        -- destruct (length_two _ H2) as (k' & v' & Hkv).
           rewrite (parse_common_row_two _ _ _ _ Hkv).
           destruct (decide (k' = k)) as [->|Hne].
           ++ rewrite lookup_insert_eq. eauto.
           ++ by rewrite lookup_insert_ne.
        -- by rewrite (parse_common_row_other _ _ H2).
      * apply elem_of_cons in Hin as [->|Hin].
        -- left. rewrite (parse_common_row_two _ _ _ _ Hrow).
           rewrite lookup_insert_eq. eauto.
        -- right. eauto.
Qed.

(** Rows that do not write the key [k] leave its entry alone. *)
Lemma foldl_parse_common_row_untouched rows : ∀ (common : gmap str str) k,
  (∀ row v, row ∈ rows → row_elements row ≠ [k; v]) →
  foldl parse_common_row common rows !! k = common !! k.
Proof.
  induction rows as [|row rows IH]; intros common k Hno; simpl; [done|].
  rewrite IH by (intros row' v Hin; apply Hno; by right).
  destruct (decide (length (row_elements row) = 2%nat)) as [H2|H2].
  - destruct (length_two _ H2) as (k' & v' & Hkv).
    rewrite (parse_common_row_two _ _ _ _ Hkv).
    apply lookup_insert_ne. intros ->. by apply (Hno row v'); [left|].
  - by rewrite (parse_common_row_other _ _ H2).
Qed.

(** The entry of a key is the one written by the last row that has it. *)
Lemma foldl_parse_common_row_last before row after : ∀ (common : gmap str str) k v,
  row_elements row = [k; v] →
  (∀ row' v', row' ∈ after → row_elements row' ≠ [k; v']) →
  foldl parse_common_row common (before ++ row :: after) !! k
    = Some (remove_char NBSP v).
Proof.
  intros common k v Hrow Hno.
  rewrite foldl_app. simpl.
  rewrite foldl_parse_common_row_untouched by done.
  rewrite (parse_common_row_two _ _ _ _ Hrow). apply lookup_insert_eq.
Qed.

(** What [parse_common_data] gives when brand, model and table are there. *)
Lemma parse_common_data_ok data page brand model rows :
  marka page = Some brand →
  modell page = Some model →
  hirdetesadatok page = Some rows →
  parse_common_data data page =
    Ok (set_common
          (foldl parse_common_row
             (<[ Keys.model_group := default [] (modellcsoport page) ]>
                (<[ Keys.model := model ]> (<[ Keys.brand := brand ]> ∅)))
             rows)
          data).
Proof.
  intros Hb Hm Ht. unfold parse_common_data.
  rewrite Hb, Hm, Ht. simpl. by destruct (modellcsoport page).
Qed.

(** C8. The loop over the rows of the attribute table writes an entry
    for a row exactly when the row has two non-blank cells: the key is
    the first of them and the value the second (both stripped, the value
    without its no-break spaces); any other row leaves the mapping as it
    is.  So, apart from the three fixed keys, the keys of the resulting
    mapping are those of the rows with exactly two non-blank cells, and
    the entry of such a row is in the mapping unless a later row has the
    same key.  For the rows [["Price","10000"],["Color"],["Year","2020"]]
    the mapping holds Price: 10000 and Year: 2020, and nothing for Color. *)
Theorem common_data_takes_two_cell_rows :
  (∀ row, row_elements row = strip <$> nonempty_cells row) ∧
  (∀ (common : gmap str str) row,
     (length (nonempty_cells row) = 2%nat →
        ∃ k v, row_elements row = [k; v] ∧
               parse_common_row common row = <[ k := remove_char NBSP v ]> common) ∧
     (length (nonempty_cells row) ≠ 2%nat →
        parse_common_row common row = common)) ∧
  (∀ data page brand model rows,
     marka page = Some brand →
     modell page = Some model →
     hirdetesadatok page = Some rows →
     ∃ data',
       parse_common_data data page = Ok data' ∧
       (∀ k, k ∉ fixed_common_keys →
          (is_Some (data_common data' !! k) ↔
           ∃ row, row ∈ rows ∧ length (nonempty_cells row) = 2%nat ∧
                  head (row_elements row) = Some k)) ∧
       (∀ before row after k v,
          rows = before ++ row :: after →
          row_elements row = [k; v] →
          (∀ row' v', row' ∈ after → row_elements row' ≠ [k; v']) →
          data_common data' !! k = Some (remove_char NBSP v))) ∧
  (parse_common_data (Sample.empty_data Sample.car1) Sample.plain_car
     = Ok (set_common TableExample.common (Sample.empty_data Sample.car1)) ∧
   hirdetesadatok Sample.plain_car
     = Some [ [of_string "Price"; of_string "10000"];
              [of_string "Color"];
              [of_string "Year"; of_string "2020"] ] ∧
   TableExample.common !! of_string "Price" = Some (of_string "10000") ∧
   TableExample.common !! of_string "Year" = Some (of_string "2020") ∧
   TableExample.common !! of_string "Color" = None ∧
   dom TableExample.common =
     {[ of_string "Price"; of_string "Year";
        Keys.brand; Keys.model; Keys.model_group ]}).
Proof.
  split; [exact row_elements_nonempty_cells|]. split; [|split].
  - intros common row. split.
    + intros H2.
      assert (Hlen : length (row_elements row) = 2%nat)
        by (rewrite row_elements_nonempty_cells; by rewrite length_fmap).
      destruct (length_two _ Hlen) as (k & v & Hkv).
      exists k, v. split; [done|]. by apply parse_common_row_two.
    + intros H2. apply parse_common_row_other.
      rewrite row_elements_nonempty_cells. by rewrite length_fmap.
  - intros data page brand model rows Hb Hm Ht.
    eexists. split; [by apply parse_common_data_ok|]. simpl. split.
    + intros k Hk. rewrite foldl_parse_common_row_keys. split.
      * intros [[x Hx]|(row & v & Hin & Hrow)].
        -- exfalso. apply Hk. unfold fixed_common_keys.
           destruct (decide (k = Keys.model_group)) as [->|H1]; [set_solver|].
           rewrite lookup_insert_ne in Hx by done.
           destruct (decide (k = Keys.model)) as [->|H2]; [set_solver|].
           rewrite lookup_insert_ne in Hx by done.
           destruct (decide (k = Keys.brand)) as [->|H3]; [set_solver|].
           rewrite lookup_insert_ne in Hx by done.
           by rewrite lookup_empty in Hx.
        -- exists row. split; [done|]. split.
           ++ rewrite <- (length_fmap strip), <- row_elements_nonempty_cells.
              by rewrite Hrow.
           ++ by rewrite Hrow.
      * intros (row & Hin & H2 & Hhd). right.
        assert (Hlen : length (row_elements row) = 2%nat)
          by (rewrite row_elements_nonempty_cells; by rewrite length_fmap).
        destruct (length_two _ Hlen) as (k' & v & Hkv).
        rewrite Hkv in Hhd. simpl in Hhd. injection Hhd as ->.
        exists row, v. done.
    + intros before row after k v -> Hrow Hno.
      by apply foldl_parse_common_row_last.
  - split; [|split; [reflexivity|]].
    + rewrite (parse_common_data_ok _ Sample.plain_car (of_string "Opel")
                 (of_string "Astra") Sample.example_rows)
        by reflexivity.
      unfold Sample.example_rows, TableExample.common. cbn [foldl].
      rewrite (parse_common_row_two _ [of_string "Price"; of_string "10000"]
                 (of_string "Price") (of_string "10000"))
        by reflexivity.
      rewrite (parse_common_row_other _ [of_string "Color"])
        by (vm_compute; lia).
      rewrite (parse_common_row_two _ [of_string "Year"; of_string "2020"]
                 (of_string "Year") (of_string "2020"))
        by reflexivity.
      reflexivity.
    + unfold TableExample.common.
      split; [rewrite lookup_insert_ne by discriminate; apply lookup_insert_eq|].
      split; [apply lookup_insert_eq|].
      split; [rewrite !lookup_insert_ne by discriminate; apply lookup_empty|].
      apply set_eq. intros k. rewrite elem_of_dom.
      rewrite !lookup_insert. rewrite lookup_empty.
      repeat case_decide; subst; set_solver.
Qed.

Lemma common_data_takes_two_cell_rows_witness :
  ∃ data',
    parse_common_data (Sample.empty_data Sample.car1) Sample.plain_car = Ok data' ∧
    data_common data' !! of_string "Year" = Some (of_string "2020").
Proof.
  destruct (proj1 (proj2 (proj2 common_data_takes_two_cell_rows))
              (Sample.empty_data Sample.car1) Sample.plain_car
              (of_string "Opel") (of_string "Astra") Sample.example_rows
              eq_refl eq_refl eq_refl) as (data' & Hdata & _ & Hlast).
  exists data'. split; [exact Hdata|].
  apply (Hlast [ [of_string "Price"; of_string "10000"]; [of_string "Color"] ]
               [of_string "Year"; of_string "2020"] []
               (of_string "Year") (of_string "2020")).
  - reflexivity.
  - reflexivity.
  - intros row' v' Hin. by apply elem_of_nil in Hin.
Defined.

(** ** Optional and mandatory parts of a car page *)

Lemma parse_common_data_raises data page :
  marka page = None ∨ modell page = None ∨ hirdetesadatok page = None →
  parse_common_data data page = Raise AttributeError.
Proof.
  unfold parse_common_data.
  destruct (marka page), (modell page), (hirdetesadatok page);
    simpl; intros [H|[H|H]]; done.
Qed.

Lemma parse_images_loop_ok w n links : ∀ acc,
  (∀ src, src ∈ links → ∃ img, urlopen w n src = Ok img) →
  ∃ images, parse_images_loop w n links acc = Ok images.
Proof.
  induction links as [|src links IH]; intros acc Hall; simpl; [eauto|].
  destruct (Hall src) as [img Himg]; [by left|].
  rewrite Himg. simpl. apply IH. intros src' Hin. apply Hall. by right.
Qed.

Lemma parse_description_data_raises data page :
  raises (parse_description_data data page) ↔
  ∃ text, leiras page = Some text ∧ (length (split LF text) ≤ 2)%nat.
Proof.
  unfold parse_description_data, raises, getitem.
  destruct (leiras page) as [text|]; simpl.
  - destruct (split LF text !! 2%nat) as [line|] eqn:Hl; simpl.
    + split; [intros [e He]; done|].
      intros (text' & [= <-] & Hlen).
      apply lookup_lt_Some in Hl. lia.
    + split; [|eauto]. intros _. exists text. split; [done|].
      by apply lookup_ge_None in Hl.
  - split; [intros [e He]; done|]. intros (text & Ht & _). done.
Qed.

Lemma description_keys_differ : Keys.Egyeb ≠ Keys.Leiras.
Proof. discriminate. Qed.

(** The record of a page that has its brand, model and table and no
    first description section, when all its images can be loaded. *)
Lemma extract_ok_without_optional_parts w p n l page brand model rows :
  requests_post w n l (headers p) (cookies p) = Ok page →
  (∀ src, src ∈ thumbnails page → ∃ img, urlopen w n src = Ok img) →
  marka page = Some brand →
  modell page = Some model →
  hirdetesadatok page = Some rows →
  leiras page = None →
  ∃ data,
    extract w p n l = Ok data ∧
    data_common data =
      foldl parse_common_row
        (<[ Keys.model_group := default [] (modellcsoport page) ]>
           (<[ Keys.model := model ]> (<[ Keys.brand := brand ]> ∅)))
        rows ∧
    data_description data =
      <[ Keys.Egyeb :=
           match egyebinformacio page with
           | None => DStr []
           | Some text => DList (slice 3 (-1) (split LF text))
           end ]> (<[ Keys.Leiras := DStr [] ]> ∅).
Proof.
  intros Hpost Himg Hb Hm Ht Hl.
  unfold extract. rewrite Hpost. simpl.
  unfold parse_images. simpl.
  destruct (parse_images_loop_ok w n (thumbnails page) [] Himg) as [images Hi].
  rewrite Hi. simpl.
  rewrite (parse_common_data_ok _ page brand model rows Hb Hm Ht). simpl.
  unfold parse_description_data. rewrite Hl. simpl.
  eexists. split; [reflexivity|]. simpl. split; reflexivity.
Qed.

(** C9. On a fetched car page, a missing model-group link is read as an
    empty model group and a missing description section as an empty
    string, and neither makes the extraction fail; a missing brand link,
    model link or attribute table raises, and the extraction of the
    link fails: the link ends in the broken set.  (The entry
    [model_group] of the record is the default unless a row of the
    table is itself keyed [model_group].) *)
Theorem optional_parts_default_mandatory_parts_raise :
  (∀ data page,
     modellcsoport page = None →
     parse_common_data data page
       = parse_common_data data (with_modellcsoport (Some []) page)) ∧
  (∀ data page,
     leiras page = None →
     ∃ data', parse_description_data data page = Ok data' ∧
              data_description data' !! Keys.Leiras = Some (DStr [])) ∧
  (∀ data page data',
     egyebinformacio page = None →
     parse_description_data data page = Ok data' →
     data_description data' !! Keys.Egyeb = Some (DStr [])) ∧
  (∀ data page,
     raises (parse_description_data data page) ↔
     ∃ text, leiras page = Some text ∧ (length (split LF text) ≤ 2)%nat) ∧
  (∀ w p n l page brand model rows,
     requests_post w n l (headers p) (cookies p) = Ok page →
     (∀ src, src ∈ thumbnails page → ∃ img, urlopen w n src = Ok img) →
     marka page = Some brand →
     modell page = Some model →
     hirdetesadatok page = Some rows →
     modellcsoport page = None →
     leiras page = None →
     egyebinformacio page = None →
     ∃ data,
       extract w p n l = Ok data ∧
       ((∀ row v, row ∈ rows → row_elements row ≠ [Keys.model_group; v]) →
        data_common data !! Keys.model_group = Some []) ∧
       data_description data !! Keys.Leiras = Some (DStr []) ∧
       data_description data !! Keys.Egyeb = Some (DStr [])) ∧
  (∀ data page,
     raises (parse_common_data data page) ↔
     marka page = None ∨ modell page = None ∨ hirdetesadatok page = None) ∧
  (∀ w n self l page,
     l ∈ new_vehicle_links self →
     requests_post w n l (headers (params self)) (cookies (params self)) = Ok page →
     marka page = None ∨ modell page = None ∨ hirdetesadatok page = None →
     raises (extract w (params self) n l) ∧
     (l ∈ broken_vehicle_links (parse_car_page w n self l)) ∧
     (l ∉ new_vehicle_links (parse_car_page w n self l)) ∧
     vehicle_data (parse_car_page w n self l) = vehicle_data self).
Proof.
  split; [|split; [|split; [|split; [|split; [|split]]]]].
  - intros data page Hmg. unfold parse_common_data. simpl. by rewrite Hmg.
  - intros data page Hl. unfold parse_description_data. rewrite Hl. simpl.
    eexists. split; [reflexivity|]. simpl.
    rewrite lookup_insert_ne by apply description_keys_differ.
    apply lookup_insert_eq.
  - intros data page data' He. unfold parse_description_data. rewrite He.
    destruct (match leiras page with
              | Some text => getitem (split LF text) 2
              | None => Ok []
              end) as [description|e]; simpl; [|done].
    intros [= <-]. simpl. apply lookup_insert_eq.
  - exact parse_description_data_raises.
  - intros w p n l page brand model rows Hpost Himg Hb Hm Ht Hmg Hl He.
    destruct (extract_ok_without_optional_parts w p n l page brand model rows
                Hpost Himg Hb Hm Ht Hl) as (data & Hx & Hc & Hd).
    exists data. split; [exact Hx|]. rewrite Hc, Hd, Hmg, He. simpl.
    split; [|split].
    + intros Hno. rewrite foldl_parse_common_row_untouched by exact Hno.
      apply lookup_insert_eq.
    + rewrite lookup_insert_ne by apply description_keys_differ.
      apply lookup_insert_eq.
    + apply lookup_insert_eq.
  - intros data page. split.
    + intros [e He].
      destruct (marka page) as [brand|] eqn:Hb; [|by left].
      destruct (modell page) as [model|] eqn:Hm; [|by right; left].
      destruct (hirdetesadatok page) as [rows|] eqn:Ht; [|by right; right].
      by rewrite (parse_common_data_ok data page brand model rows Hb Hm Ht) in He.
    + intros H. exists AttributeError. by apply parse_common_data_raises.
  - intros w n self l page Hin Hpost Hmiss.
    assert (Hr : raises (extract w (params self) n l)).
    { unfold extract. rewrite Hpost. simpl.
      destruct (parse_images _ _ _ page) as [data|e]; simpl; [|by exists e].
      rewrite (parse_common_data_raises data page Hmiss). simpl.
      by exists AttributeError. }
    split; [exact Hr|]. destruct Hr as [e He].
    rewrite (parse_car_page_failure w n self l e Hin He).
    unfold after_failure. simpl.
    split; [apply elem_of_union; right; by apply elem_of_singleton|].
    split; [|reflexivity].
    intros [_ H]%elem_of_difference. apply H. by apply elem_of_singleton.
Qed.

Lemma optional_parts_default_mandatory_parts_raise_witness :
  (∃ data',
     parse_description_data (Sample.empty_data Sample.car1) Sample.plain_car
       = Ok data' ∧
     data_description data' !! Keys.Leiras = Some (DStr [])) ∧
  (Sample.car1 ∈ broken_vehicle_links
     (parse_car_page Sample.no_table 0 (Sample.blank {[Sample.car1]}) Sample.car1)).
Proof.
  split.
  - exact (proj1 (proj2 optional_parts_default_mandatory_parts_raise)
             (Sample.empty_data Sample.car1) Sample.plain_car eq_refl).
  - assert (Hin : Sample.car1 ∈ new_vehicle_links (Sample.blank {[Sample.car1]}))
      by decide_by_computation.
    exact (proj1 (proj2
             (proj2 (proj2 (proj2 (proj2 (proj2 (proj2
                optional_parts_default_mandatory_parts_raise)))))
                Sample.no_table 0%nat (Sample.blank {[Sample.car1]}) Sample.car1
                _ Hin eq_refl (or_intror (or_intror eq_refl))))).
Defined.

(** * Further properties of the crawler *)

(** ** A task, whatever the state of its link *)

(** X1. A task on a pending link whose extraction succeeds returns
    without exception, appends the extracted record at the end of
    [vehicle_data], adds the link to the processed set, removes it from
    the pending set, and leaves the broken set and the written files as
    they were. *)
Theorem successful_task_records_link
    (w : World) (n : nat) (self : CarCrawler) (l : str) (data : VehicleData) :
  l ∈ new_vehicle_links self →
  extract w (params self) n l = Ok data →
  parse_car_page_escapes w n self l = None ∧
  vehicle_data (parse_car_page w n self l) = vehicle_data self ++ [data] ∧
  processed_vehicle_links (parse_car_page w n self l)
    = processed_vehicle_links self ∪ {[l]} ∧
  new_vehicle_links (parse_car_page w n self l) = new_vehicle_links self ∖ {[l]} ∧
  broken_vehicle_links (parse_car_page w n self l) = broken_vehicle_links self ∧
  written (parse_car_page w n self l) = written self.
Proof.
  intros Hin Hex.
  split; [by apply pending_task_returns|].
  by rewrite (parse_car_page_success w n self l data Hin Hex).
Qed.

Lemma successful_task_records_link_witness :
  processed_vehicle_links
    (parse_car_page Sample.second_page_down 0 (Sample.blank {[Sample.car1]})
       Sample.car1)
  = processed_vehicle_links (Sample.blank {[Sample.car1]}) ∪ {[Sample.car1]}.
Proof.
  assert (Hin : Sample.car1 ∈ new_vehicle_links (Sample.blank {[Sample.car1]}))
    by (simpl; by apply elem_of_singleton).
  destruct (extract Sample.second_page_down (params (Sample.blank {[Sample.car1]}))
              0 Sample.car1) as [data|e] eqn:Hex; [|by vm_compute in Hex].
  exact (proj1 (proj2 (proj2
           (successful_task_records_link Sample.second_page_down 0
              (Sample.blank {[Sample.car1]}) Sample.car1 data Hin Hex)))).
Defined.

(** What a task does with a link that is not pending. *)
Lemma steps_not_pending w n self l :
  l ∉ new_vehicle_links self →
  parse_car_page_steps w n self l =
    match extract w (params self) n l with
    | Ok data =>
        let s1 := set_vehicle_data (vehicle_data self ++ [data]) self in
        let s2 := set_processed (processed_vehicle_links self ∪ {[l]}) s1 in
        ([s1; s2], s2, Some KeyError)
    | Raise _ => ([], self, Some KeyError)
    end.
Proof.
  intros Hnin. unfold parse_car_page_steps.
  destruct (extract w (params self) n l) as [data|e]; simpl;
    unfold new_remove; simpl; rewrite !decide_False by done; reflexivity.
Qed.

(** X2. A task on a link that is not in the pending set lets a
    [KeyError] out: [remove] fails in the [try] block or in the handler,
    and in the handler nothing catches it.  If the extraction had
    succeeded the record is appended and the link is in the processed
    set all the same; if it had failed the crawler is left exactly as
    it was, so the link is not added to the broken set. *)
Theorem task_on_absent_link_raises_KeyError
    (w : World) (n : nat) (self : CarCrawler) (l : str) :
  l ∉ new_vehicle_links self →
  parse_car_page_escapes w n self l = Some KeyError ∧
  (∀ data, extract w (params self) n l = Ok data →
     parse_car_page w n self l =
       set_processed (processed_vehicle_links self ∪ {[l]})
         (set_vehicle_data (vehicle_data self ++ [data]) self)) ∧
  (raises (extract w (params self) n l) → parse_car_page w n self l = self).
Proof.
  intros Hnin. unfold parse_car_page_escapes, parse_car_page.
  rewrite (steps_not_pending w n self l Hnin).
  destruct (extract w (params self) n l) as [data|e]; simpl.
  - split; [done|]. split; [by intros ? [= <-]|]. intros [e He]. done.
  - split; [done|]. split; done.
Qed.

Lemma task_on_absent_link_raises_KeyError_witness :
  parse_car_page_escapes Sample.site_down 0 (Sample.blank ∅) Sample.car1
    = Some KeyError.
Proof.
  apply (task_on_absent_link_raises_KeyError Sample.site_down 0
           (Sample.blank ∅) Sample.car1).
  simpl. apply not_elem_of_empty.
Defined.

(** ** The history of a run only grows *)

(** The two ways a task can end, for any link. *)
Lemma parse_car_page_cases w n self l :
  let s' := parse_car_page w n self l in
  params s' = params self ∧ written s' = written self ∧
  new_vehicle_links s' = new_vehicle_links self ∖ {[l]} ∧
  ((∃ data, extract w (params self) n l = Ok data ∧
            vehicle_data s' = vehicle_data self ++ [data] ∧
            processed_vehicle_links s' = processed_vehicle_links self ∪ {[l]} ∧
            broken_vehicle_links s' = broken_vehicle_links self) ∨
   (raises (extract w (params self) n l) ∧
    vehicle_data s' = vehicle_data self ∧
    processed_vehicle_links s' = processed_vehicle_links self ∧
    ((l ∈ new_vehicle_links self ∧
      broken_vehicle_links s' = broken_vehicle_links self ∪ {[l]}) ∨
     ((l ∉ new_vehicle_links self) ∧
      broken_vehicle_links s' = broken_vehicle_links self)))).
Proof.
  simpl. split; [apply parse_car_page_params|].
  split; [apply parse_car_page_written|].
  destruct (decide (l ∈ new_vehicle_links self)) as [Hin|Hnin];
    destruct (extract w (params self) n l) as [data|e] eqn:Hex.
  - rewrite (parse_car_page_success w n self l data Hin Hex). simpl.
    split; [done|]. left. by exists data.
  - rewrite (parse_car_page_failure w n self l e Hin Hex). simpl.
    split; [done|]. right. split; [by exists e|]. split; [done|].
    split; [done|]. by left.
  - unfold parse_car_page. rewrite (steps_not_pending w n self l Hnin), Hex.
    simpl. split; [set_solver|]. left. by exists data.
  - unfold parse_car_page. rewrite (steps_not_pending w n self l Hnin), Hex.
    simpl. split; [set_solver|]. right. split; [by exists e|].
    split; [done|]. split; [done|]. by right.
Qed.

Lemma save_data_keeps_sets_aux w n limit self :
  new_vehicle_links (save_data w n limit self) = new_vehicle_links self ∧
  processed_vehicle_links (save_data w n limit self) = processed_vehicle_links self ∧
  broken_vehicle_links (save_data w n limit self) = broken_vehicle_links self ∧
  written self `prefix_of` written (save_data w n limit self).
Proof.
  unfold save_data.
  destruct (limit <=? length (vehicle_data self))%nat; simpl;
    repeat split; try done.
  rewrite <- app_assoc. by apply prefix_app_r.
Qed.

Lemma continues_refl a : continues a a.
Proof. unfold continues. by repeat split. Qed.

Lemma continues_trans a b c : continues a b → continues b c → continues a c.
Proof.
  intros (H1 & H2 & H3 & H4 & H5) (K1 & K2 & K3 & K4 & K5).
  unfold continues. split; [congruence|].
  split; [set_solver|]. split; [set_solver|].
  split; by etrans.
Qed.

Lemma parse_car_page_continues w n self l :
  continues self (parse_car_page w n self l).
Proof.
  destruct (parse_car_page_cases w n self l) as (Hp & Hw & _ & Hc).
  unfold continues, all_records. rewrite Hp, Hw.
  split; [done|].
  destruct Hc as [(data & _ & Hvd & Hpr & Hbr)|(_ & Hvd & Hpr & Hbr)].
  - rewrite Hvd, Hpr, Hbr. split; [set_solver|]. split; [done|].
    split; [|done]. rewrite app_assoc. by apply prefix_app_r.
  - rewrite Hvd, Hpr. split; [done|].
    split; [destruct Hbr as [[_ ->]|[_ ->]]; set_solver|]. done.
Qed.

Lemma run_tasks_continues w n links : ∀ self,
  continues self (run_tasks w n self links).
Proof.
  induction links as [|l links IH]; intros self; simpl.
  - apply continues_refl.
  - eapply continues_trans; [apply parse_car_page_continues|apply IH].
Qed.

Lemma update_new_links_continues hrefs self :
  continues self (update_new_links hrefs self).
Proof. unfold continues, all_records. by repeat split. Qed.

Lemma exported_records_app f1 f2 :
  exported_records (f1 ++ f2) = exported_records f1 ++ exported_records f2.
Proof. unfold exported_records. apply flat_map_app. Qed.

(** Flushing moves the records from the buffer to a file: none is
    dropped, none is duplicated. *)
Lemma save_data_all_records w n limit self :
  all_records (save_data w n limit self) = all_records self.
Proof.
  unfold save_data, all_records.
  destruct (limit <=? length (vehicle_data self))%nat; [|done].
  simpl. rewrite !exported_records_app. simpl.
  by rewrite !app_nil_r.
Qed.

Lemma save_data_continues w n limit self :
  continues self (save_data w n limit self).
Proof.
  unfold continues. rewrite save_data_all_records, save_data_params.
  destruct (save_data_keeps_sets_aux w n limit self) as (_ & Hpr & Hbr & Hw).
  rewrite Hpr, Hbr. repeat split; try done.
Qed.

Lemma loop_body_continues w n hrefs self :
  continues self (loop_body w n hrefs self).
Proof.
  unfold loop_body, dispatch.
  eapply continues_trans; [apply update_new_links_continues|].
  eapply continues_trans; [apply run_tasks_continues|].
  apply save_data_continues.
Qed.

(** What a successful [fetch_page] tells about the page. *)
Lemma fetch_page_ok w n url html button :
  fetch_page w n url = Ok (html, button) →
  ∃ u, url = Some u ∧ requests_get w n u = Ok html ∧ li_next html = Some button.
Proof.
  unfold fetch_page. destruct url as [u|]; simpl; [|done].
  destruct (requests_get w n u) as [page|e] eqn:Hget; simpl; [|done].
  destruct (li_next page) as [li|] eqn:Hli; simpl; [|done].
  intros [= <- <-]. by exists u.
Qed.

(** A property kept by the wave of every fetched page with a next-page
    link and by the flush check is kept by the loop, however it ends. *)
Lemma crawl_loop_invariant (P : CarCrawler → Prop) w :
  (∀ n u page b s,
     requests_get w n u = Ok page → li_next page = Some (Some b) →
     P s → P (dispatch w n (update_new_links (vehicle_hrefs page) s))) →
  (∀ n s, P s → P (save_data w n default_limit s)) →
  ∀ fuel n self html button log,
    (∃ u, requests_get w n u = Ok html ∧ li_next html = Some button) →
    P self → P (crawler (crawl_loop fuel w n self html button log)).
Proof.
  intros Hwave Hsave. induction fuel as [|fuel IH];
    intros n self html button log (u & Hget & Hli) HP;
    destruct button as [b|]; try done.
  rewrite crawl_loop_step.
  assert (HP1 : P (dispatch w n (update_new_links (vehicle_hrefs html) self)))
    by (by eapply Hwave).
  destruct (dispatch_raises w n _) as [e|]; [exact HP1|].
  assert (HP2 : P (loop_body w n (vehicle_hrefs html) self))
    by (by apply Hsave).
  destruct (fetch_page w (S n) (href b)) as [[html' button']|e] eqn:Hf; simpl.
  - destruct (fetch_page_ok _ _ _ _ _ Hf) as (u' & _ & Hget' & Hli').
    apply IH; [by exists u'|done].
  - done.
Qed.

Lemma iterate_invariant (P : CarCrawler → Prop) w p :
  (∀ n u page b s,
     requests_get w n u = Ok page → li_next page = Some (Some b) →
     P s → P (dispatch w n (update_new_links (vehicle_hrefs page) s))) →
  (∀ n s, P s → P (save_data w n default_limit s)) →
  P (new_crawler p) →
  ∀ fuel, P (crawler (iterate_over_available_cars fuel w p)).
Proof.
  intros Hwave Hsave H0 fuel. unfold iterate_over_available_cars.
  destruct (fetch_page w 0 (Some (website p))) as [[html button]|e] eqn:Hf;
    simpl; [|done].
  destruct (fetch_page_ok _ _ _ _ _ Hf) as (u & _ & Hget & Hli).
  apply crawl_loop_invariant; [done|done|by exists u|done].
Qed.

(** A property that holds after every turn of the loop whose wave was
    not interrupted holds when the loop ends otherwise than by the
    [RuntimeError] of a wave. *)
Lemma crawl_loop_completed (Q : CarCrawler → Prop) w :
  (∀ n hrefs s,
     dispatch_raises w n (update_new_links hrefs s) = None →
     Q (loop_body w n hrefs s)) →
  ∀ fuel n self html button log,
    Q self →
    outcome (crawl_loop fuel w n self html button log) ≠ Raised RuntimeError →
    Q (crawler (crawl_loop fuel w n self html button log)).
Proof.
  intros Hbody. induction fuel as [|fuel IH];
    intros n self html button log HQ;
    destruct button as [b|]; try done.
  rewrite crawl_loop_step.
  destruct (dispatch_raises w n _) as [e|] eqn:Hr.
  - unfold dispatch_raises in Hr. destruct (interrupted _ _); [|done].
    injection Hr as <-. simpl. done.
  - destruct (fetch_page w (S n) (href b)) as [[html' button']|e]; simpl.
    + apply IH. by apply Hbody.
    + intros _. by apply Hbody.
Qed.

(** X3. A link that is in the processed set or in the broken set stays
    there: a task (on any link), a wave (whatever its schedule,
    interrupted or not), a flush check and the whole loop, however it
    ends, never remove a link from either set. *)
Theorem history_only_grows :
  (∀ w n self l,
     processed_vehicle_links self ⊆ processed_vehicle_links (parse_car_page w n self l) ∧
     broken_vehicle_links self ⊆ broken_vehicle_links (parse_car_page w n self l)) ∧
  (∀ w n self,
     processed_vehicle_links self ⊆ processed_vehicle_links (dispatch w n self) ∧
     broken_vehicle_links self ⊆ broken_vehicle_links (dispatch w n self)) ∧
  (∀ w n limit self,
     processed_vehicle_links (save_data w n limit self) = processed_vehicle_links self ∧
     broken_vehicle_links (save_data w n limit self) = broken_vehicle_links self) ∧
  (∀ fuel w n self html button log,
     processed_vehicle_links self
       ⊆ processed_vehicle_links (crawler (crawl_loop fuel w n self html button log)) ∧
     broken_vehicle_links self
       ⊆ broken_vehicle_links (crawler (crawl_loop fuel w n self html button log))).
Proof.
  split; [|split; [|split]].
  - intros w n self l.
    destruct (parse_car_page_continues w n self l) as (_ & H1 & H2 & _). done.
  - intros w n self.
    destruct (run_tasks_continues w n
                (finished (schedule w n) (new_vehicle_links self)) self)
      as (_ & H1 & H2 & _). done.
  - intros w n limit self.
    destruct (save_data_keeps_sets_aux w n limit self) as (_ & H1 & H2 & _). done.
  - assert (H : ∀ fuel w n self html button log,
               continues self (crawler (crawl_loop fuel w n self html button log))).
    { induction fuel as [|fuel IH]; intros w n self html button log;
        destruct button as [b|]; try apply continues_refl.
      rewrite crawl_loop_step.
      destruct (dispatch_raises w n _) as [e|]; simpl.
      - eapply continues_trans; [apply update_new_links_continues|].
        apply run_tasks_continues.
      - destruct (fetch_page w (S n) (href b)) as [[html' button']|e]; simpl.
        + eapply continues_trans; [apply loop_body_continues|apply IH].
        + apply loop_body_continues. }
    intros fuel w n self html button log.
    destruct (H fuel w n self html button log) as (_ & H1 & H2 & _). done.
Qed.

(** X4. The flush check conserves the records: the records exported so
    far followed by the buffered ones are the same list before and
    after, whether it writes or not.  With a positive limit a second
    check right after the first does nothing; with limit 0 every check
    writes an export file, even for an empty buffer. *)
Theorem flush_conserves_records (w : World) (n m limit : nat) (self : CarCrawler) :
  all_records (save_data w n limit self) = all_records self ∧
  ((0 < limit)%nat →
     save_data w m limit (save_data w n limit self) = save_data w n limit self) ∧
  (limit = 0%nat →
     written (save_data w n limit self) =
       written self ++
         [ (export_file (now w n), PickledData (vehicle_data self));
           (broken_links_file, PickledLinks (broken_vehicle_links self)) ]).
Proof.
  split; [apply save_data_all_records|]. split.
  - intros Hpos. unfold save_data at 2 3.
    destruct (limit <=? length (vehicle_data self))%nat eqn:Hle.
    + unfold save_data. simpl.
      assert ((limit <=? 0)%nat = false) as -> by (apply Nat.leb_gt; lia).
      reflexivity.
    + unfold save_data. by rewrite Hle.
  - intros ->. unfold save_data. simpl. by rewrite <- app_assoc.
Qed.

Lemma flush_conserves_records_witness :
  save_data Sample.flaky 1 1
    (save_data Sample.flaky 0 1
       (set_vehicle_data [Sample.empty_data Sample.car1] (Sample.blank ∅)))
  = save_data Sample.flaky 0 1
      (set_vehicle_data [Sample.empty_data Sample.car1] (Sample.blank ∅)).
Proof.
  apply (flush_conserves_records Sample.flaky 0 1 1
           (set_vehicle_data [Sample.empty_data Sample.car1] (Sample.blank ∅))).
  lia.
Defined.

(** ** What holds when a run ends *)

(** Line 106 and 107: the record keeps the link, and its identifier is
    the last hyphen-separated piece of the link. *)
Lemma extract_link_id w p n l data :
  extract w p n l = Ok data →
  data_link data = l ∧ data_id data = List.last (split HYPHEN l) [].
Proof.
  unfold extract.
  destruct (requests_post w n l (headers p) (cookies p)) as [page|e]; simpl;
    [|done].
  unfold parse_images. simpl.
  destruct (parse_images_loop w n (thumbnails page) []) as [images|e]; simpl;
    [|done].
  unfold parse_common_data.
  destruct (marka page) as [brand|]; simpl; [|done].
  destruct (modell page) as [model|]; simpl; [|done].
  destruct (hirdetesadatok page) as [rows|]; simpl; [|done].
  unfold parse_description_data.
  destruct (match leiras page with
            | Some text => getitem (split LF text) 2
            | None => Ok []
            end) as [description|e]; simpl; [|done].
  by intros [= <-].
Qed.

Section RunInvariants.
Context (w : World).

Lemma parse_car_page_records_match n self l :
  records_match self → records_match (parse_car_page w n self l).
Proof.
  unfold records_match, all_records. intros Hm.
  destruct (parse_car_page_cases w n self l) as (_ & Hw & _ & Hc).
  rewrite Hw.
  destruct Hc as [(data & Hex & Hvd & Hpr & _)|(_ & Hvd & Hpr & _)].
  - rewrite Hvd, Hpr. destruct (extract_link_id _ _ _ _ _ Hex) as [Hl _].
    rewrite app_assoc, fmap_app, list_to_set_app_L. simpl.
    rewrite Hl, <- Hm. set_solver.
  - by rewrite Hvd, Hpr.
Qed.

Lemma run_tasks_records_match n links : ∀ self,
  records_match self → records_match (run_tasks w n self links).
Proof.
  induction links as [|l links IH]; intros self Hm; simpl; [done|].
  apply IH. by apply parse_car_page_records_match.
Qed.

Lemma wave_records_match n hrefs self :
  records_match self →
  records_match (dispatch w n (update_new_links hrefs self)).
Proof. intros Hm. by apply run_tasks_records_match. Qed.

Lemma save_data_records_match n limit self :
  records_match self → records_match (save_data w n limit self).
Proof.
  unfold records_match. intros Hm. rewrite save_data_all_records.
  by destruct (save_data_keeps_sets_aux w n limit self) as (_ & -> & _).
Qed.

Lemma wave_exports_ok n hrefs self :
  exports_ok self → exports_ok (dispatch w n (update_new_links hrefs self)).
Proof.
  unfold exports_ok.
  destruct (dispatch_spec w n (update_new_links hrefs self)) as (_ & Hwr & _).
  simpl in Hwr. by rewrite Hwr.
Qed.

Lemma save_data_exports_ok n self :
  exports_ok self → exports_ok (save_data w n default_limit self).
Proof.
  intros (Hall & Hw). unfold exports_ok, save_data.
  destruct (default_limit <=? length (vehicle_data self))%nat eqn:Hle; simpl;
    [|by split].
  apply Nat.leb_le in Hle. split.
  - unfold exports_at_least. rewrite <- app_assoc.
    apply Forall_app. split; [exact Hall|].
    repeat constructor. simpl. exact Hle.
  - right. rewrite !exported_records_app, !length_app. simpl.
    rewrite app_nil_r. lia.
Qed.

Lemma save_data_buffer_below n self :
  (length (vehicle_data (save_data w n default_limit self)) < default_limit)%nat.
Proof.
  unfold save_data.
  destruct (default_limit <=? length (vehicle_data self))%nat eqn:Hle; simpl.
  - unfold default_limit. lia.
  - by apply Nat.leb_gt in Hle.
Qed.

Lemma loop_body_no_pending n hrefs self :
  dispatch_raises w n (update_new_links hrefs self) = None →
  new_vehicle_links (loop_body w n hrefs self) = ∅.
Proof.
  intros Hnone. unfold loop_body.
  destruct (save_data_keeps_sets_aux w n default_limit
              (dispatch w n (update_new_links hrefs self))) as (-> & _).
  by destruct (dispatch_complete w n _ Hnone).
Qed.

Lemma wave_all_links (L : str → Prop) n hrefs self :
  (∀ l, l ∈ hrefs → L l) →
  all_links L self →
  all_links L (dispatch w n (update_new_links hrefs self)).
Proof.
  intros Hhrefs Hall l. unfold seen_links.
  destruct (dispatch_spec w n (update_new_links hrefs self))
    as (_ & _ & _ & Hnew & Hproc & Hbrok).
  destruct (submitted_spec (schedule w n)
              (new_vehicle_links (update_new_links hrefs self)))
    as (_ & Hsub & _).
  simpl in Hnew, Hproc, Hbrok, Hsub.
  assert (Hup : ∀ l', l' ∈ new_vehicle_links self ∪ list_to_set hrefs → L l').
  { intros l' [H|H%elem_of_list_to_set]%elem_of_union.
    - apply Hall. set_solver.
    - by apply Hhrefs. }
  intros [H|[H|H]%elem_of_union]%elem_of_union.
  - apply Hnew in H as [H _]. by apply Hup.
  - apply Hproc in H as [H|[H _]]; [apply Hall; unfold seen_links; set_solver|].
    by apply Hup, Hsub.
  - apply Hbrok in H as [H|[H _]]; [apply Hall; unfold seen_links; set_solver|].
    by apply Hup, Hsub.
Qed.

Lemma save_data_all_links (L : str → Prop) n limit self :
  all_links L self → all_links L (save_data w n limit self).
Proof.
  intros Hall l. unfold seen_links.
  destruct (save_data_keeps_sets_aux w n limit self) as (-> & -> & -> & _).
  apply Hall.
Qed.

Lemma listed_app log extra l : listed w log l → listed w (log ++ extra) l.
Proof.
  intros (n & u & page & b & Hlog & H). exists n, u, page, b.
  split; [|exact H]. by apply lookup_app_l_Some.
Qed.

Lemma crawl_loop_all_listed fuel : ∀ n self html button log,
  length log = S n →
  (∃ u, log !! n = Some (Some u) ∧ requests_get w n u = Ok html ∧
        li_next html = Some button) →
  all_links (listed w log) self →
  all_links (listed w (fetched (crawl_loop fuel w n self html button log)))
    (crawler (crawl_loop fuel w n self html button log)).
Proof.
  induction fuel as [|fuel IH];
    intros n self html button log Hlen (u & Hlog & Hget & Hli) Hall;
    destruct button as [b|]; try done.
  rewrite crawl_loop_step.
  assert (Hwave : all_links (listed w log)
                    (dispatch w n (update_new_links (vehicle_hrefs html) self))).
  { apply wave_all_links; [|exact Hall].
    intros l Hl. by exists n, u, html, b. }
  destruct (dispatch_raises w n _) as [e|]; [exact Hwave|].
  assert (Hbody : all_links (listed w log)
                    (loop_body w n (vehicle_hrefs html) self))
    by (by apply save_data_all_links).
  destruct (fetch_page w (S n) (href b)) as [[html' button']|e] eqn:Hf; simpl.
  - destruct (fetch_page_ok _ _ _ _ _ Hf) as (u' & Hu' & Hget' & Hli').
    apply IH.
    + rewrite length_app. simpl. lia.
    + exists u'. split; [|done].
      rewrite lookup_app_r by lia. rewrite Hlen, Nat.sub_diag. simpl.
      by rewrite Hu'.
    + intros l Hl. apply listed_app. by apply Hbody.
  - intros l Hl. apply listed_app. by apply Hbody.
Qed.

End RunInvariants.

(** X5. Unless a wave has interrupted the driver, no link is pending
    when a run ends: if the method returns, or an exception other than
    [RuntimeError] leaves it, or the model runs out of fuel, the pending
    set is empty. *)
Theorem run_leaves_no_pending_link (fuel : nat) (w : World) (p : Params) :
  outcome (iterate_over_available_cars fuel w p) ≠ Raised RuntimeError →
  new_vehicle_links (crawler (iterate_over_available_cars fuel w p)) = ∅.
Proof.
  unfold iterate_over_available_cars.
  destruct (fetch_page w 0 (Some (website p))) as [[html button]|e];
    simpl; [|done].
  apply (crawl_loop_completed (λ s, new_vehicle_links s = ∅)); [|done].
  intros n hrefs s. apply loop_body_no_pending.
Qed.

Lemma run_leaves_no_pending_link_witness :
  new_vehicle_links (crawler (iterate_over_available_cars 5 Sample.flaky Sample.p))
  = ∅.
Proof.
  apply (run_leaves_no_pending_link 5 Sample.flaky Sample.p).
  vm_compute. discriminate.
Defined.

(** X6. At the end of a run, however it ends and whatever the schedules
    of its waves, the processed set is exactly the set of the links of
    the records extracted during the run, those handed to an export
    file and those still in [vehicle_data]: no processed link lacks a
    record and no record belongs to an unprocessed link. *)
Theorem processed_links_are_the_recorded_links (fuel : nat) (w : World) (p : Params) :
  processed_vehicle_links (crawler (iterate_over_available_cars fuel w p))
  = list_to_set
      (data_link <$> all_records (crawler (iterate_over_available_cars fuel w p))).
Proof.
  apply (iterate_invariant records_match); [| |done].
  - intros n u page b s _ _. apply wave_records_match.
  - intros n s. apply save_data_records_match.
Qed.

(** X7. However a run ends, every export file it has written received
    at least 1000 records, and a run that extracts fewer than 1000
    records in all writes no file, not even the broken-links file.
    When the run ends otherwise than by the [RuntimeError] of a wave,
    fewer than 1000 records are left in [vehicle_data]; they are in no
    file, for the method ends without a last flush. *)
Theorem small_runs_write_nothing (fuel : nat) (w : World) (p : Params) :
  exports_at_least 1000 (written (crawler (iterate_over_available_cars fuel w p))) ∧
  ((length (all_records (crawler (iterate_over_available_cars fuel w p))) < 1000)%nat →
   written (crawler (iterate_over_available_cars fuel w p)) = []) ∧
  (outcome (iterate_over_available_cars fuel w p) ≠ Raised RuntimeError →
   (length (vehicle_data (crawler (iterate_over_available_cars fuel w p))) < 1000)%nat).
Proof.
  assert (H : exports_ok (crawler (iterate_over_available_cars fuel w p))).
  { apply (iterate_invariant exports_ok).
    - intros n u page b s _ _. apply wave_exports_ok.
    - intros n s. apply save_data_exports_ok.
    - unfold exports_ok. simpl. split; [constructor|by left]. }
  destruct H as (Hall & Hw). unfold default_limit in *.
  split; [exact Hall|]. split.
  - intros Hlt. destruct Hw as [Hw|Hw]; [exact Hw|].
    unfold all_records in Hlt. rewrite length_app in Hlt. lia.
  - unfold iterate_over_available_cars.
    destruct (fetch_page w 0 (Some (website p))) as [[html button]|e];
      simpl; [|lia].
    apply (crawl_loop_completed
             (λ s, (length (vehicle_data s) < 1000)%nat)); [|simpl; lia].
    intros n hrefs s _. apply save_data_buffer_below.
Qed.

Lemma small_runs_write_nothing_witness :
  written (crawler (iterate_over_available_cars 5 Sample.flaky Sample.p)) = [].
Proof.
  apply (small_runs_write_nothing 5 Sample.flaky Sample.p).
  vm_compute. lia.
Defined.

(** X8. A run only works on links it found: every link in the processed
    set or in the broken set at the end of a run was listed by a result
    page that the run requested and that has a next-page link. *)
Theorem crawled_links_were_listed (fuel : nat) (w : World) (p : Params) (l : str) :
  l ∈ seen_links (crawler (iterate_over_available_cars fuel w p)) →
  listed w (fetched (iterate_over_available_cars fuel w p)) l.
Proof.
  intros Hl. revert Hl. unfold iterate_over_available_cars.
  destruct (fetch_page w 0 (Some (website p))) as [[html button]|e] eqn:Hf;
    simpl; [|unfold seen_links; simpl; set_solver].
  destruct (fetch_page_ok _ _ _ _ _ Hf) as (u & [= <-] & Hget & Hli).
  intros Hl.
  apply (crawl_loop_all_listed w fuel 0 (new_crawler p) html button
           [Some (website p)]).
  - reflexivity.
  - by exists (website p).
  - intros l' Hl'. unfold seen_links in Hl'. simpl in Hl'. set_solver.
  - set_solver.
Qed.

Lemma crawled_links_were_listed_witness :
  listed Sample.flaky
    (fetched (iterate_over_available_cars 5 Sample.flaky Sample.p)) Sample.car1.
Proof.
  apply (crawled_links_were_listed 5 Sample.flaky Sample.p Sample.car1).
  decide_by_computation.
Defined.

(** X9. The links of the last result page are not crawled: when the
    first page already has a pager item without link, the method returns
    after that one request with nothing pending, processed, broken,
    recorded or written, whatever cars the page lists.  In general the
    loop entered on a page without next-page link returns the crawler
    untouched. *)
Theorem last_page_is_not_crawled (fuel : nat) (w : World) (p : Params) (page : ResultPage) :
  requests_get w 0 (website p) = Ok page →
  li_next page = Some None →
  iterate_over_available_cars fuel w p =
    {| outcome := Returned; crawler := new_crawler p;
       fetched := [Some (website p)] |} ∧
  (∀ n self log,
     crawl_loop fuel w n self page None log =
       {| outcome := Returned; crawler := self; fetched := log |}).
Proof.
  intros Hget Hli. split.
  - unfold iterate_over_available_cars, fetch_page. rewrite Hget. simpl.
    rewrite Hli. simpl. apply crawl_loop_without_button.
  - intros n self log. apply crawl_loop_without_button.
Qed.

Lemma last_page_is_not_crawled_witness :
  iterate_over_available_cars 5 Sample.one_page Sample.p =
    {| outcome := Returned; crawler := new_crawler Sample.p;
       fetched := [Some (website Sample.p)] |}.
Proof.
  apply (last_page_is_not_crawled 5 Sample.one_page Sample.p
           (Sample.last_page [Sample.car1; Sample.car2])); reflexivity.
Defined.

(** ** The images of a car page *)

Lemma parse_images_loop_spec w n links : ∀ acc images,
  parse_images_loop w n links acc = Ok images ↔
  ∃ loaded, images = acc ++ loaded ∧
            Forall2 (λ src img, urlopen w n src = Ok img) links loaded.
Proof.
  induction links as [|src links IH]; intros acc images; simpl.
  - split.
    + intros [= <-]. exists []. by rewrite app_nil_r.
    + intros (loaded & -> & ->%Forall2_nil_inv_l). by rewrite app_nil_r.
  - destruct (urlopen w n src) as [img|e] eqn:Hsrc; simpl.
    + rewrite IH. split.
      * intros (loaded & -> & Hall). exists (img :: loaded).
        rewrite <- app_assoc. split; [done|]. by constructor.
      * intros (loaded & -> & Hall).
        apply Forall2_cons_inv_l in Hall as (img' & loaded' & Himg & Hall & ->).
        rewrite Hsrc in Himg. injection Himg as <-.
        exists loaded'. by rewrite <- app_assoc.
    + split; [done|]. intros (loaded & _ & Hall).
      apply Forall2_cons_inv_l in Hall as (img' & ? & Himg & _).
      by rewrite Hsrc in Himg.
Qed.

Lemma parse_images_loop_first_failure w n before src after e : ∀ acc,
  (∀ s, s ∈ before → ∃ img, urlopen w n s = Ok img) →
  urlopen w n src = Raise e →
  parse_images_loop w n (before ++ src :: after) acc = Raise e.
Proof.
  induction before as [|s before IH]; intros acc Hok Hsrc; simpl.
  - by rewrite Hsrc.
  - destruct (Hok s) as [img Himg]; [by left|]. rewrite Himg. simpl.
    apply IH; [|done]. intros s' Hin. apply Hok. by right.
Qed.

Lemma loaded_images_unique w n srcs : ∀ imgs1 imgs2,
  Forall2 (λ src img, urlopen w n src = Ok img) srcs imgs1 →
  Forall2 (λ src img, urlopen w n src = Ok img) srcs imgs2 →
  imgs1 = imgs2.
Proof.
  induction srcs as [|s srcs IH]; intros imgs1 imgs2 H1 H2.
  - apply Forall2_nil_inv_l in H1. apply Forall2_nil_inv_l in H2. by subst.
  - apply Forall2_cons_inv_l in H1 as (i1 & l1 & E1 & H1 & ->).
    apply Forall2_cons_inv_l in H2 as (i2 & l2 & E2 & H2 & ->).
    rewrite E1 in E2. injection E2 as <-. f_equal. by apply IH.
Qed.

(** X10. [parse_images] loads the thumbnails in the order of the page:
    it succeeds exactly when every thumbnail can be loaded and then
    stores one image per thumbnail, in order, overwriting whatever
    [data] held and touching no other field; otherwise it raises the
    exception of the first thumbnail that fails, and the later ones are
    not looked at. *)
Theorem parse_images_in_page_order (w : World) (n : nat)
    (data : VehicleData) (page : CarPage) :
  (∀ data',
     parse_images w n data page = Ok data' ↔
     Forall2 (λ src img, urlopen w n src = Ok img)
       (thumbnails page) (data_images data') ∧
     data' = set_images (data_images data') data) ∧
  (∀ before src after e,
     thumbnails page = before ++ src :: after →
     (∀ s, s ∈ before → ∃ img, urlopen w n s = Ok img) →
     urlopen w n src = Raise e →
     parse_images w n data page = Raise e).
Proof.
  unfold parse_images. simpl. split.
  - intros data'.
    destruct (parse_images_loop w n (thumbnails page) []) as [images|e] eqn:Hl;
      simpl.
    + apply parse_images_loop_spec in Hl as (loaded & -> & Hall). simpl.
      split.
      * intros [= <-]. simpl. by split.
      * intros [Hall' Heq].
        assert (loaded = data_images data') as ->
          by (by apply (loaded_images_unique w n (thumbnails page))).
        transitivity (Ok (set_images (data_images data') data));
          [reflexivity|by rewrite <- Heq].
    + split; [done|]. intros [Hall _]. exfalso.
      assert (Hok : parse_images_loop w n (thumbnails page) []
                    = Ok ([] ++ data_images data')).
      { apply parse_images_loop_spec. by exists (data_images data'). }
      by rewrite Hl in Hok.
  - intros before src after e Hth Hok Hsrc. rewrite Hth.
    by rewrite (parse_images_loop_first_failure w n before src after e [] Hok Hsrc).
Qed.

Lemma parse_images_in_page_order_witness :
  parse_images Sample.flaky 0 (Sample.empty_data Sample.car1)
    {| thumbnails := [Some Sample.car1; None]; marka := None; modell := None;
       modellcsoport := None; hirdetesadatok := None; detail_divs := [];
       leiras := None; egyebinformacio := None |}
  = Raise NetworkError.
Proof.
  apply (proj2 (parse_images_in_page_order Sample.flaky 0
                  (Sample.empty_data Sample.car1) _)
           [] (Some Sample.car1) [None] NetworkError).
  - reflexivity.
  - intros s Hs. by apply elem_of_nil in Hs.
  - reflexivity.
Defined.

(** ** The records of a wave *)

Lemma omap_extracted_links w p n (links : list str) :
  data_link <$> omap (extracted w p n) links
  = filter (λ l, extract_ok w p n l) links.
Proof.
  induction links as [|l links IH]; [done|].
  destruct (extract w p n l) as [data|e] eqn:Hex.
  - rewrite filter_cons_True by (unfold extract_ok; by rewrite Hex).
    simpl. unfold extracted at 1. rewrite Hex. simpl.
    destruct (extract_link_id _ _ _ _ _ Hex) as [Hl _]. rewrite Hl.
    f_equal. exact IH.
  - rewrite filter_cons_False by (unfold extract_ok; rewrite Hex; simpl; tauto).
    simpl. unfold extracted at 1. rewrite Hex. exact IH.
Qed.

(** X11. A wave, whatever its schedule, appends to [vehicle_data]
    exactly one record for each link whose task it submits and whose
    extraction succeeds, in the order in which the tasks finish, and no
    other record: the links of the appended records have no repetition
    and are the submitted links with a successful extraction, so at
    most as many records are added as there were pending links. *)
Theorem wave_appends_one_record_per_success (w : World) (n : nat) (self : CarCrawler) :
  ∃ added,
    vehicle_data (dispatch w n self) = vehicle_data self ++ added ∧
    data_link <$> added
      = filter (λ l, extract_ok w (params self) n l)
          (finished (schedule w n) (new_vehicle_links self)) ∧
    NoDup (data_link <$> added) ∧
    (∀ l, l ∈ data_link <$> added ↔
          l ∈ submitted (schedule w n) (new_vehicle_links self) ∧
          extract_ok w (params self) n l) ∧
    (length added ≤ size (new_vehicle_links self))%nat.
Proof.
  destruct (dispatch_spec w n self) as (_ & _ & Hvd & _).
  destruct (finished_spec (schedule w n) (new_vehicle_links self)) as [Hnd Hfin].
  exists (omap (extracted w (params self) n)
            (finished (schedule w n) (new_vehicle_links self))).
  split; [exact Hvd|].
  assert (Hlinks := omap_extracted_links w (params self) n
                      (finished (schedule w n) (new_vehicle_links self))).
  split; [exact Hlinks|]. split; [|split].
  - rewrite Hlinks. by apply NoDup_filter.
  - intros l. rewrite Hlinks, list_elem_of_filter, Hfin. tauto.
  - rewrite <- (length_fmap data_link), Hlinks.
    etrans; [apply length_filter|].
    unfold finished. rewrite arrange_Permutation.
    destruct (submitted_spec (schedule w n) (new_vehicle_links self))
      as (Hnds & Hsub & _).
    unfold size, set_size. simpl.
    apply submseteq_length, NoDup_submseteq; [exact Hnds|].
    intros l Hl. apply elem_of_elements. by apply Hsub.
Qed.

(** ** Slices *)

Lemma slice_0_m1 {A} (l : list A) : slice 0 (-1) l = take (length l - 1) l.
Proof.
  unfold slice, clamp_index.
  change (0 <? 0)%Z with false. change (-1 <? 0)%Z with true. cbv iota.
  change (Z.to_nat 0) with 0%nat.
  replace (Z.to_nat (Z.max 0 (Z.of_nat (length l) + -1))) with (length l - 1)%nat
    by lia.
  rewrite Nat.min_0_l, Nat.sub_0_r. by rewrite drop_0.
Qed.

Lemma slice_3_m1_lines {A} (l : list A) :
  slice 3 (-1) l = take (length l - 4) (drop 3 l).
Proof.
  unfold slice, clamp_index.
  change (3 <? 0)%Z with false. change (-1 <? 0)%Z with true. cbv iota.
  change (Z.to_nat 3) with 3%nat.
  replace (Z.to_nat (Z.max 0 (Z.of_nat (length l) + -1))) with (length l - 1)%nat
    by lia.
  destruct (decide (3 ≤ length l)%nat) as [Hle|Hgt].
  - rewrite Nat.min_l by done. f_equal. lia.
  - rewrite Nat.min_r by lia.
    rewrite !drop_ge by lia. by rewrite !take_nil.
Qed.

Lemma slice_from_1 {A} (l : list A) : slice_from 1 l = drop 1 l.
Proof.
  unfold slice_from, clamp_index.
  change (1 <? 0)%Z with false. cbv iota. change (Z.to_nat 1) with 1%nat.
  destruct l as [|a l]; [done|]. simpl. by rewrite drop_0.
Qed.

(** ** The description sections *)

(** X12. With both description sections on the page,
    [parse_description_data] succeeds exactly when the first section has
    at least three lines; it then stores the third line of the first
    section under 'Leírás' and, under 'Egyéb információ', the lines
    of the second section from the fourth to the one before the last
    (none when it has four lines or fewer). These two are the only keys,
    and no other field of the record changes. *)
Theorem description_sections_by_line (data : VehicleData) (page : CarPage)
    (text : str) :
  leiras page = Some text →
  (∀ line,
     split LF text !! 2%nat = Some line →
     ∃ data',
       parse_description_data data page = Ok data' ∧
       data' = set_description (data_description data') data ∧
       data_description data' !! Keys.Leiras = Some (DStr line) ∧
       (∀ other,
          egyebinformacio page = Some other →
          data_description data' !! Keys.Egyeb =
            Some (DList (take (length (split LF other) - 4)
                           (drop 3 (split LF other))))) ∧
       dom (data_description data') = {[ Keys.Leiras; Keys.Egyeb ]}) ∧
  ((length (split LF text) < 3)%nat →
   parse_description_data data page = Raise IndexError).
Proof.
  intros Hl. split.
  - intros line Hline. unfold parse_description_data, getitem.
    rewrite Hl, Hline. simpl. eexists. split; [reflexivity|]. simpl.
    split; [reflexivity|]. split; [|split].
    + rewrite lookup_insert_ne by apply description_keys_differ.
      apply lookup_insert_eq.
    + intros other ->. rewrite lookup_insert_eq. by rewrite slice_3_m1_lines.
    + rewrite !dom_insert_L, dom_empty_L. set_solver.
  - intros Hlen. unfold parse_description_data, getitem. rewrite Hl.
    rewrite (lookup_ge_None_2 (split LF text) 2) by lia. reflexivity.
Qed.

Lemma description_sections_by_line_witness :
  parse_description_data (Sample.empty_data Sample.car1)
    Sample.short_description_car
  = Raise IndexError.
Proof.
  apply (proj2 (description_sections_by_line (Sample.empty_data Sample.car1)
                  Sample.short_description_car
                  (of_string "one" ++ [LF] ++ of_string "two") eq_refl)).
  vm_compute. lia.
Defined.

(** ** The details blocks *)

Lemma parse_detail_title_lookup text details title t :
  parse_detail_title text details title !! t =
    if decide (t = title ∧ contains title text = true)
    then Some (detail_options text) else details !! t.
Proof.
  unfold parse_detail_title, detail_options.
  destruct (contains title text) eqn:Hc; case_decide as Hd.
  - destruct Hd as [-> _]. rewrite slice_from_1, slice_0_m1.
    apply lookup_insert_eq.
  - apply lookup_insert_ne. intros ->. by apply Hd.
  - by destruct Hd.
  - done.
Qed.

Lemma foldl_parse_detail_title_lookup text titles : ∀ details t,
  foldl (parse_detail_title text) details titles !! t =
    if decide (t ∈ titles ∧ contains t text = true)
    then Some (detail_options text) else details !! t.
Proof.
  induction titles as [|title titles IH]; intros details t; cbn [foldl].
  - case_decide as H; [|done]. destruct H as [H _]. by apply elem_of_nil in H.
  - rewrite IH, parse_detail_title_lookup.
    repeat case_decide; try done; exfalso;
      rewrite ?elem_of_cons in *; naive_solver.
Qed.

Lemma foldl_parse_detail_keys divs : ∀ details t,
  is_Some (foldl parse_detail details divs !! t) ↔
  is_Some (details !! t) ∨
  (t ∈ detail_titles ∧ ∃ text, text ∈ divs ∧ contains t text = true).
Proof.
  induction divs as [|text divs IH]; intros details t; cbn [foldl].
  - split; [by left|]. intros [H|(_ & text & Hin & _)]; [done|].
    by apply elem_of_nil in Hin.
  - rewrite IH. unfold parse_detail.
    rewrite foldl_parse_detail_title_lookup. split.
    + intros [H|(Ht & text' & Hin & Hc)].
      * case_decide as Hd; [|by left].
        destruct Hd as [H1 H2].
        right. split; [done|]. exists text. split; [by left|done].
      * right. split; [done|]. exists text'. split; [by right|done].
    + intros [H|(Ht & text' & Hin & Hc)].
      * left. by case_decide.
      * apply elem_of_cons in Hin as [->|Hin].
        -- left. rewrite decide_True by done. eauto.
        -- right. split; [done|]. by exists text'.
Qed.

Lemma foldl_parse_detail_untouched divs : ∀ details t,
  (∀ text, text ∈ divs → contains t text = false) →
  foldl parse_detail details divs !! t = details !! t.
Proof.
  induction divs as [|text divs IH]; intros details t Hno; cbn [foldl]; [done|].
  rewrite IH by (intros text' Hin; apply Hno; by right).
  unfold parse_detail. rewrite foldl_parse_detail_title_lookup.
  case_decide as Hd; [|done]. destruct Hd as [_ Hc].
  rewrite Hno in Hc by (by left). done.
Qed.

(** X13. [parse_details_data] never raises and changes only the
    details of the record.  The four section titles are the only
    possible keys, and a title is a key exactly when the text of some
    details block contains it; its value comes from the last such
    block: the lines of that block without the first and the last. *)
Theorem details_keyed_by_known_titles (data : VehicleData) (page : CarPage) :
  ∃ data',
    parse_details_data data page = Ok data' ∧
    data' = set_details (data_details data') data ∧
    (∀ t, is_Some (data_details data' !! t) ↔
          t ∈ detail_titles ∧
          ∃ text, text ∈ detail_divs page ∧ contains t text = true) ∧
    (∀ before text after t,
       detail_divs page = before ++ text :: after →
       t ∈ detail_titles →
       contains t text = true →
       (∀ text', text' ∈ after → contains t text' = false) →
       data_details data' !! t = Some (detail_options text)).
Proof.
  unfold parse_details_data.
  change (λ acc detail, foldl (parse_detail_title detail) acc detail_titles)
    with parse_detail.
  exists (set_details (foldl parse_detail ∅ (detail_divs page)) data).
  split; [reflexivity|]. split; [reflexivity|].
  cbn [data_details set_details]. split.
  - intros t. rewrite foldl_parse_detail_keys. rewrite lookup_empty.
    split; [intros [[x Hx]|H]; [done|exact H]|by right].
  - intros before text after t -> Ht Hc Hno.
    rewrite foldl_app. cbn [foldl].
    rewrite foldl_parse_detail_untouched by exact Hno.
    unfold parse_detail at 1. rewrite foldl_parse_detail_title_lookup.
    by rewrite decide_True.
Qed.

Lemma details_keyed_by_known_titles_witness :
  ∃ data',
    parse_details_data (Sample.empty_data Sample.car1) Sample.detailed_car
      = Ok data' ∧
    data_details data' !! Keys.Belter
      = Some [Keys.Belter; of_string "klima"; of_string "ABS"].
Proof.
  destruct (details_keyed_by_known_titles (Sample.empty_data Sample.car1)
              Sample.detailed_car) as (data' & Hok & _ & _ & Hlast).
  exists data'. split; [exact Hok|].
  apply (Hlast [] Sample.interior_block [] Keys.Belter).
  - reflexivity.
  - by left.
  - reflexivity.
  - intros text' Hin. by apply elem_of_nil in Hin.
Defined.

(** ** The identifier of a record *)

Lemma split_nonempty sep s : split sep s ≠ [].
Proof.
  destruct s as [|c s]; simpl; [done|].
  destruct (c =? sep); [done|]. by destruct (split sep s).
Qed.

(** The last piece of a split: what follows the last separator. *)
Lemma split_last_piece sep s :
  ∃ pre,
    s = pre ++ List.last (split sep s) [] ∧
    (sep ∉ List.last (split sep s) []) ∧
    ((length (split sep s) = 1%nat ∧ pre = []) ∨
     ((2 ≤ length (split sep s))%nat ∧ last pre = Some sep)).
Proof.
  induction s as [|c s IH]; simpl.
  - exists []. split; [done|]. split; [apply not_elem_of_nil|]. by left.
  - destruct IH as (pre & Hs & Hno & Hcase).
    pose proof (split_nonempty sep s) as Hne.
    destruct (c =? sep) eqn:Hc.
    + apply N.eqb_eq in Hc as ->.
      destruct (split sep s) as [|h t] eqn:Hsp; [done|].
      exists (sep :: pre). split; [by rewrite Hs at 1|]. split; [done|].
      right. split; [simpl; lia|].
      destruct Hcase as [[_ ->]|[_ Hlast]]; [done|].
      destruct pre; [done|]. exact Hlast.
    + apply N.eqb_neq in Hc.
      destruct (split sep s) as [|h [|h' t]] eqn:Hsp; [done| |].
      * simpl in *. destruct Hcase as [[_ ->]|[Hlen _]]; [|lia].
        simpl in Hs. subst s. exists []. split; [done|].
        split; [|by left]. intros [->|H]%elem_of_cons; done.
      * exists (c :: pre). split; [by rewrite Hs at 1|]. split; [done|].
        right. split; [simpl; lia|].
        destruct Hcase as [[Hlen _]|[_ Hlast]]; [simpl in Hlen; lia|].
        destruct pre; [done|]. exact Hlast.
Qed.

(** X14. The record extracted for a link keeps the link, and its
    identifier is what follows the last hyphen of the link: it contains
    no hyphen, the link ends with it, and what precedes it in the link
    is empty or ends with a hyphen.  A link without any hyphen is its
    own identifier. *)
Theorem record_id_follows_last_hyphen (w : World) (p : Params) (n : nat)
    (l : str) (data : VehicleData) :
  extract w p n l = Ok data →
  data_link data = l ∧
  (HYPHEN ∉ data_id data) ∧
  (∃ pre, l = pre ++ data_id data ∧ (pre = [] ∨ last pre = Some HYPHEN)) ∧
  (HYPHEN ∉ l → data_id data = l).
Proof.
  intros Hex. destruct (extract_link_id _ _ _ _ _ Hex) as [Hl Hid].
  destruct (split_last_piece HYPHEN l) as (pre & Hs & Hno & Hcase).
  rewrite <- Hid in Hs, Hno.
  split; [exact Hl|]. split; [exact Hno|]. split.
  - exists pre. split; [exact Hs|].
    destruct Hcase as [[_ ->]|[_ Hlast]]; [by left|by right].
  - intros Hnol. destruct Hcase as [[_ ->]|[_ Hlast]]; [simpl in Hs; by symmetry|].
    exfalso. apply Hnol. rewrite Hs. apply elem_of_app. left.
    by apply last_Some_elem_of.
Qed.

Lemma record_id_follows_last_hyphen_witness :
  ∃ data,
    extract Sample.second_page_down Sample.p 0 Sample.car1 = Ok data ∧
    data_link data = Sample.car1.
Proof.
  destruct (extract Sample.second_page_down Sample.p 0 Sample.car1)
    as [data|e] eqn:Hex; [|by vm_compute in Hex].
  exists data. split; [reflexivity|].
  exact (proj1 (record_id_follows_last_hyphen Sample.second_page_down Sample.p
                  0 Sample.car1 data Hex)).
Defined.

(** ** File names *)

(** X15. Whatever the clock returns, the name of an export file differs
    from the name of the broken-links file, so a flush never replaces
    the broken-links file by a batch of records nor the batch it has
    just written by the broken links. *)
Theorem export_never_named_like_broken_links (w : World) (n limit : nat)
    (self : CarCrawler) (timestamp : str) :
  export_file timestamp ≠ broken_links_file ∧
  ∀ name records,
    (name, PickledData records) ∈ written_since self (save_data w n limit self) →
    name ≠ broken_links_file.
Proof.
  assert (Hne : ∀ ts, export_file ts ≠ broken_links_file).
  { intros ts H. unfold export_file, broken_links_file in H.
    apply (f_equal (@rev N)) in H. rewrite !rev_app_distr in H.
    vm_compute in H. discriminate H. }
  split; [apply Hne|].
  intros name records. unfold written_since, save_data.
  destruct (limit <=? length (vehicle_data self))%nat; simpl.
  - rewrite <- app_assoc, drop_app_length.
    intros [[= -> _]|[[=]|H%elem_of_nil]%elem_of_cons]%elem_of_cons; [|done].
    apply Hne.
  - rewrite drop_all. by intros H%elem_of_nil.
Qed.

(** ** Stripped cells *)

Lemma lstrip_head s c : head (lstrip s) = Some c → isspace c = false.
Proof.
  induction s as [|a s IH]; simpl; [done|].
  destruct (isspace a) eqn:Ha; [exact IH|]. simpl. by intros [= <-].
Qed.

Lemma lstrip_suffix s : ∃ pre, s = pre ++ lstrip s.
Proof.
  induction s as [|a s [pre IH]]; simpl; [by exists []|].
  destruct (isspace a); [|by exists []].
  exists (a :: pre). simpl. by rewrite <- IH.
Qed.

Lemma last_rev_head (s : str) : last (rev s) = head s.
Proof. destruct s as [|a s]; simpl; [done|]. by rewrite last_snoc. Qed.

Lemma rstrip_last s c : last (rstrip s) = Some c → isspace c = false.
Proof. unfold rstrip. rewrite last_rev_head. apply lstrip_head. Qed.

Lemma rstrip_prefix s : ∃ suf, s = rstrip s ++ suf.
Proof.
  unfold rstrip. destruct (lstrip_suffix (rev s)) as [pre Hpre].
  exists (rev pre). rewrite <- rev_app_distr, <- Hpre. by rewrite rev_involutive.
Qed.

(** A stripped string has no white space at either end. *)
Lemma strip_trimmed s : trimmed (strip s).
Proof.
  unfold trimmed, strip. split; [|apply rstrip_last].
  intros c Hc. destruct (rstrip_prefix (lstrip s)) as [suf Hsuf].
  apply (lstrip_head s). rewrite Hsuf.
  destruct (rstrip (lstrip s)); [done|]. exact Hc.
Qed.

Lemma remove_char_NBSP_clean v :
  v ≠ [] → trimmed v →
  remove_char NBSP v ≠ [] ∧ NBSP ∉ remove_char NBSP v.
Proof.
  intros Hne [Hhead _]. unfold remove_char. split.
  - destruct v as [|c v]; [done|].
    assert (Hc : isspace c = false) by (by apply Hhead).
    rewrite filter_cons_True; [done|]. intros ->. done.
  - intros [H _]%list_elem_of_filter. by apply H.
Qed.

(** What one table row may change in the mapping. *)
Lemma parse_common_row_entries common row k v :
  parse_common_row common row !! k = Some v →
  common !! k = Some v ∨ clean_entry k v.
Proof.
  intros Hlook.
  destruct (decide (length (row_elements row) = 2%nat)) as [H2|H2].
  - destruct (length_two _ H2) as (k' & v' & Hkv).
    rewrite (parse_common_row_two _ _ _ _ Hkv) in Hlook.
    destruct (decide (k' = k)) as [->|Hne];
      [|rewrite lookup_insert_ne in Hlook by done; by left].
    rewrite lookup_insert_eq in Hlook. injection Hlook as <-. right.
    rewrite row_elements_nonempty_cells in Hkv.
    unfold nonempty_cells in Hkv.
    destruct (filter (λ cell, strip cell ≠ []) row) as [|c1 [|c2 [|c3 cs]]] eqn:Hf;
      try done.
    simpl in Hkv. injection Hkv as <- <-.
    assert (H1 : c1 ∈ filter (λ cell, strip cell ≠ []) row) by (rewrite Hf; set_solver).
    assert (H2' : c2 ∈ filter (λ cell, strip cell ≠ []) row) by (rewrite Hf; set_solver).
    apply list_elem_of_filter in H1 as [H1 _].
    apply list_elem_of_filter in H2' as [H2' _].
    destruct (remove_char_NBSP_clean (strip c2) H2' (strip_trimmed c2)) as [Hv1 Hv2].
    unfold clean_entry. split; [done|]. split; [apply strip_trimmed|]. done.
  - rewrite (parse_common_row_other _ _ H2) in Hlook. by left.
Qed.

Lemma foldl_parse_common_row_entries rows : ∀ (common : gmap str str) k v,
  foldl parse_common_row common rows !! k = Some v →
  common !! k = Some v ∨ clean_entry k v.
Proof.
  induction rows as [|row rows IH]; intros common k v H; cbn [foldl] in H.
  - by left.
  - apply IH in H as [H|H]; [|by right].
    by apply parse_common_row_entries in H.
Qed.

(** X16. Every entry of the common mapping is one of the three fixed
    ones (brand and model with the text of their links, model_group with
    the text of its link or the empty string) or was written by a table
    row, and then its key is not empty and has no white space at either
    end, and its value is not empty and holds no no-break space. *)
Theorem common_entries_are_fixed_or_clean (data data' : VehicleData)
    (page : CarPage) (k v : str) :
  parse_common_data data page = Ok data' →
  data_common data' !! k = Some v →
  (k = Keys.brand ∧ marka page = Some v) ∨
  (k = Keys.model ∧ modell page = Some v) ∨
  (k = Keys.model_group ∧ v = default [] (modellcsoport page)) ∨
  clean_entry k v.
Proof.
  intros Hok Hlook.
  destruct (marka page) as [brand|] eqn:Hb;
    [|by rewrite parse_common_data_raises in Hok by (by left)].
  destruct (modell page) as [model|] eqn:Hm;
    [|by rewrite parse_common_data_raises in Hok by (by right; left)].
  destruct (hirdetesadatok page) as [rows|] eqn:Ht;
    [|by rewrite parse_common_data_raises in Hok by (by right; right)].
  rewrite (parse_common_data_ok data page brand model rows Hb Hm Ht) in Hok.
  injection Hok as <-. simpl in Hlook.
  apply foldl_parse_common_row_entries in Hlook as [Hbase|Hclean];
    [|by right; right; right].
  destruct (decide (k = Keys.model_group)) as [->|H1].
  { rewrite lookup_insert_eq in Hbase. injection Hbase as <-.
    right. right. by left. }
  rewrite lookup_insert_ne in Hbase by done.
  destruct (decide (k = Keys.model)) as [->|H2].
  { rewrite lookup_insert_eq in Hbase. injection Hbase as <-.
    right. by left. }
  rewrite lookup_insert_ne in Hbase by done.
  destruct (decide (k = Keys.brand)) as [->|H3].
  { rewrite lookup_insert_eq in Hbase. injection Hbase as <-. by left. }
  rewrite lookup_insert_ne in Hbase by done.
  by rewrite lookup_empty in Hbase.
Qed.

Lemma common_entries_are_fixed_or_clean_witness :
  (of_string "Year" = Keys.brand ∧ marka Sample.plain_car = Some (of_string "2020")) ∨
  (of_string "Year" = Keys.model ∧ modell Sample.plain_car = Some (of_string "2020")) ∨
  (of_string "Year" = Keys.model_group ∧
   of_string "2020" = default [] (modellcsoport Sample.plain_car)) ∨
  clean_entry (of_string "Year") (of_string "2020").
Proof.
  apply (common_entries_are_fixed_or_clean (Sample.empty_data Sample.car1)
           (set_common TableExample.common (Sample.empty_data Sample.car1))
           Sample.plain_car (of_string "Year") (of_string "2020")).
  - rewrite (parse_common_data_ok _ Sample.plain_car (of_string "Opel")
               (of_string "Astra") Sample.example_rows)
      by reflexivity.
    unfold Sample.example_rows, TableExample.common. cbn [foldl].
    rewrite (parse_common_row_two _ [of_string "Price"; of_string "10000"]
               (of_string "Price") (of_string "10000"))
      by reflexivity.
    rewrite (parse_common_row_other _ [of_string "Color"])
      by (vm_compute; lia).
    rewrite (parse_common_row_two _ [of_string "Year"; of_string "2020"]
               (of_string "Year") (of_string "2020"))
      by reflexivity.
    reflexivity.
  - unfold TableExample.common. simpl. apply lookup_insert_eq.
Defined.
